(** * The two allocators of malloc-tutorial

    [src/malloc.c] is a first-fit allocator over a singly linked list of
    block headers; [src/MyMalloc.cc] is the course skeleton that takes every
    object from the operating system.  Both obtain memory with [sbrk].

    The file has four parts: the model of the heap segment shared by both
    programs, the two programs (one module each, since both define [malloc]
    and [free]), the vocabulary of the properties, and the properties with
    their proofs. *)

From Stdlib Require Import ZArith Lia List Bool String Sorted.
From stdpp Require Import base option gmap list.

Local Open Scope Z_scope.

(** ** Outcomes of a call *)

(** A call returns, or it touches memory that is not mapped (undefined
    behaviour in C, a segmentation fault on the hosts the code targets), or
    the loop it runs is cut off by the fuel of the model. *)
Inductive result (A : Type) : Type :=
| Ret (a : A)
| Undef
| OutOfFuel.

Arguments Ret {A} a.
Arguments Undef {A}.
Arguments OutOfFuel {A}.

(** Sequencing: the first outcome that is not a return ends the call. *)
Definition bind {A B : Type} (c : result A) (k : A -> result B) : result B :=
  match c with
  | Ret a => k a
  | Undef => Undef
  | OutOfFuel => OutOfFuel
  end.

Notation "'do' x <- c ; k" := (bind c (fun x => k))
  (at level 10, x name, c at level 100, k at level 200).

Notation "'do' ' pat <- c ; k" := (bind c (fun x => let 'pat := x in k))
  (at level 10, pat pattern, c at level 100, k at level 200).

(** ** Machine integers *)

(** Unsigned [w]-bit wrap-around and the two's-complement reading of a
    [w]-bit pattern. *)
Definition wrap (w x : Z) : Z := x mod 2 ^ w.

Definition to_signed (w x : Z) : Z := (x + 2 ^ (w - 1)) mod 2 ^ w - 2 ^ (w - 1).

(** ** The heap segment *)

(** The data segment of the process: it starts at [seg_base], the program
    break is [seg_brk], and the operating system refuses to move the break
    beyond [seg_limit]. *)
Record HeapSource : Type := {
  seg_base : Z;
  seg_brk : Z;
  seg_limit : Z
}.

(** The first page of the address space is never part of the segment. *)
Definition page_size : Z := 4096.

(** Addresses are [w] bits wide. *)
Definition seg_ok (w : Z) (o : HeapSource) : Prop :=
  page_size <= seg_base o /\ seg_base o <= seg_brk o /\
  seg_brk o <= seg_limit o /\ seg_limit o < 2 ^ w - 1.

(** The segment after the break has moved by [increment]. *)
Definition moved (o : HeapSource) (increment : Z) : HeapSource :=
  {| seg_base := seg_base o; seg_brk := seg_brk o + increment;
     seg_limit := seg_limit o |}.

(** [(void* )-1], the value libc's [sbrk] returns when it fails and the
    value both programs compare the result of [sbrk] with. *)
Definition sbrk_failed (w : Z) : Z := 2 ^ w - 1.

(** The end of the page an address lies in; for an address on a page
    boundary, the address itself. *)
Definition page_end (x : Z) : Z :=
  page_size * ((x + page_size - 1) / page_size).

(** Memory is mapped by whole pages: an access to [len] bytes at [a] is
    defined from the start of the segment to the end of the page the break
    lies in.  Above that page and below the segment an access is undefined
    behaviour (a segmentation fault above).  Addresses are integers and
    pointer arithmetic is not wrapped. *)
Definition valid (o : HeapSource) (a len : Z) : bool :=
  (seg_base o <=? a) && (a + len <=? page_end (seg_brk o)).

(** * src/malloc.c *)

Module MallocC.

(** The file is written for i386 ([int $0x80]): [int] and pointers are 32
    bits wide. *)
Definition ptr_bits : Z := 32.

Definition NULL : Z := 0.

(** [brk(end_data_segment)]: the system call moves the break to the address
    when the address lies in the range the operating system allows, and
    yields the break that results, the old one when it refuses.  The wrapper
    leaves that value in the return register. *)
Definition brk (end_data_segment : Z) (o : HeapSource) : Z * HeapSource :=
  if (seg_base o <=? end_data_segment) && (end_data_segment <=? seg_limit o)
  then (end_data_segment,
        {| seg_base := seg_base o; seg_brk := end_data_segment;
           seg_limit := seg_limit o |})
  else (seg_brk o, o).

(** [sbrk(size)]: [p = brk(0); brk(p + size); return p;].  The result of
    the second call is dropped: the old break is returned whether the break
    has moved or not. *)
Definition sbrk (size : Z) (o : HeapSource) : Z * HeapSource :=
  let '(p, o) := brk 0 o in
  let '(_, o) := brk (p + size) o in
  (p, o).


(** [struct block_meta]; the fields are [size], [next], [free], [magic]. *)
Record block_meta : Type := {
  bsize : Z;
  bnext : Z;
  bfree : Z;
  bmagic : Z
}.

(** [#define META_SIZE sizeof(struct block_meta)]: four 4-byte fields. *)
Definition META_SIZE : Z := 16.

(** The global [global_base], the headers stored in the heap (keyed by their
    address) and the segment. *)
Record state : Type := {
  global_base : Z;
  blocks : gmap Z block_meta;
  os : HeapSource
}.

Definition set_os (o : HeapSource) (st : state) : state :=
  {| global_base := global_base st; blocks := blocks st; os := o |}.

Definition set_global_base (g : Z) (st : state) : state :=
  {| global_base := g; blocks := blocks st; os := os st |}.

(** Reading a header through a pointer: outside mapped memory, or where no
    header was ever written, the read is undefined. *)
Definition load (st : state) (a : Z) : result block_meta :=
  if valid (os st) a META_SIZE then
    match blocks st !! a with
    | Some b => Ret b
    | None => Undef
    end
  else Undef.

(** Memory that was never written. *)
Definition unwritten : block_meta :=
  {| bsize := 0; bnext := 0; bfree := 0; bmagic := 0 |}.

Definition set_size (v : Z) (b : block_meta) : block_meta :=
  {| bsize := v; bnext := bnext b; bfree := bfree b; bmagic := bmagic b |}.

Definition set_next (v : Z) (b : block_meta) : block_meta :=
  {| bsize := bsize b; bnext := v; bfree := bfree b; bmagic := bmagic b |}.

Definition set_free (v : Z) (b : block_meta) : block_meta :=
  {| bsize := bsize b; bnext := bnext b; bfree := v; bmagic := bmagic b |}.

Definition set_magic (v : Z) (b : block_meta) : block_meta :=
  {| bsize := bsize b; bnext := bnext b; bfree := bfree b; bmagic := v |}.

(** An assignment [a->field = v]: [f] is the setter of the field. *)
Definition assign (st : state) (a : Z) (f : block_meta -> block_meta)
  : result state :=
  if valid (os st) a META_SIZE then
    Ret {| global_base := global_base st;
           blocks := <[a := f (default unwritten (blocks st !! a))]> (blocks st);
           os := os st |}
  else Undef.

(** The loop of [find_free_block]; [last] is the caller's variable that the
    loop writes through [*last]. *)
Fixpoint find_loop (fuel : nat) (st : state) (current last size : Z)
  : result (Z * Z) :=
  match fuel with
  | O => OutOfFuel
  | S fuel' =>
      if current =? NULL then Ret (current, last)
      else
        do b <- load st current ;
        if negb (negb (bfree b =? 0) && (size <=? bsize b))
        then find_loop fuel' st (bnext b) current size
        else Ret (current, last)
  end.

(** [find_free_block(&last, size)] returns [current] and the final value of
    [last]. *)
Definition find_free_block (fuel : nat) (st : state) (last size : Z)
  : result (Z * Z) :=
  find_loop fuel st (global_base st) last size.

(** [request_space(last, size)].  [size + META_SIZE] is computed in
    [unsigned] and passed to [sbrk(int)]. *)
Definition request_space (st : state) (last size : Z) : result (Z * state) :=
  let '(block, o1) := sbrk 0 (os st) in
  let '(request, o2) :=
    sbrk (to_signed 32 (wrap 32 (size + META_SIZE))) o1 in
  let st := set_os o2 st in
  if request =? sbrk_failed ptr_bits then Ret (NULL, st)
  else
    do st <- (if last =? NULL then Ret st else assign st last (set_next block)) ;
    do st <- assign st block (set_size size) ;
    do st <- assign st block (set_next NULL) ;
    do st <- assign st block (set_free 0) ;
    do st <- assign st block (set_magic 0x12345678) ;
    Ret (block, st).

(** [malloc(size)]; [block + 1] is [META_SIZE] bytes past the header. *)
Definition malloc (fuel : nat) (size : Z) (st : state) : result (Z * state) :=
  if size <=? 0 then Ret (NULL, st)
  else if global_base st =? NULL then
    do '(block, st) <- request_space st NULL size ;
    if block =? NULL then Ret (NULL, st)
    else Ret (block + META_SIZE, set_global_base block st)
  else
    do '(block, last) <- find_free_block fuel st (global_base st) size ;
    if block =? NULL then
      do '(block, st) <- request_space st last size ;
      if block =? NULL then Ret (NULL, st)
      else Ret (block + META_SIZE, st)
    else
      do st <- assign st block (set_free 0) ;
      do st <- assign st block (set_magic 0x77777777) ;
      Ret (block + META_SIZE, st).

Definition get_block_ptr (ptr : Z) : Z := ptr - META_SIZE.

(** [free(ptr)]. *)
Definition free (ptr : Z) (st : state) : result state :=
  if ptr =? NULL then Ret st
  else
    let block_ptr := get_block_ptr ptr in
    do st <- assign st block_ptr (set_free 1) ;
    assign st block_ptr (set_magic 0x55555555).

(** The state of a process that has not called [malloc] yet. *)
Definition initial (o : HeapSource) : state :=
  {| global_base := NULL; blocks := ∅; os := o |}.

End MallocC.

(** * src/MyMalloc.cc *)

Module MyMalloc.

(** The file does not fix a data model; the two usual ones differ in the
    width of [size_t] and in the layout of [ObjectHeader]. *)
Inductive Abi : Type := ILP32 | LP64.

(** [enum { ObjFree = 0, ObjAllocated = 1 }]. *)
Definition ObjFree : Z := 0.
Definition ObjAllocated : Z := 1.

(** The fields of [class Allocator]. *)
Record Allocator : Type := {
  _heapSize : Z;
  _initialized : Z;
  _verbose : Z;
  _mallocCalls : Z;
  _freeCalls : Z;
  _reallocCalls : Z;
  _callocCalls : Z
}.

(** The process: the singleton [Allocator::TheAllocator], the segment, the
    bytes of memory (a byte never written reads as 0), the value of the
    environment variable [MALLOCVERBOSE] and the number of handlers
    registered with [atexit]. *)
Record process : Type := {
  TheAllocator : Allocator;
  os : HeapSource;
  mem : gmap Z Z;
  MALLOCVERBOSE : option string;
  atexit_handlers : nat
}.

Definition set_allocator (a : Allocator) (p : process) : process :=
  {| TheAllocator := a; os := os p; mem := mem p;
     MALLOCVERBOSE := MALLOCVERBOSE p; atexit_handlers := atexit_handlers p |}.

Definition set_os (o : HeapSource) (p : process) : process :=
  {| TheAllocator := TheAllocator p; os := o; mem := mem p;
     MALLOCVERBOSE := MALLOCVERBOSE p; atexit_handlers := atexit_handlers p |}.

Definition set_mem (m : gmap Z Z) (p : process) : process :=
  {| TheAllocator := TheAllocator p; os := os p; mem := m;
     MALLOCVERBOSE := MALLOCVERBOSE p; atexit_handlers := atexit_handlers p |}.

(** libc's [sbrk(increment)]: on success the previous break is returned and
    the break moves by [increment]; on failure [(void* )-1] is returned and
    the break stays. *)
Definition sbrk (w : Z) (increment : Z) (o : HeapSource) : Z * HeapSource :=
  let nb := seg_brk o + increment in
  if (seg_base o <=? nb) && (nb <=? seg_limit o)
  then (seg_brk o, moved o increment)
  else (sbrk_failed w, o).

(** Little-endian scalars of [n] bytes. *)
Fixpoint store_le (n : nat) (a v : Z) (m : gmap Z Z) : gmap Z Z :=
  match n with
  | O => m
  | S n' => store_le n' (a + 1) (v / 256) (<[a := v mod 256]> m)
  end.

Fixpoint load_le (n : nat) (a : Z) (m : gmap Z Z) : Z :=
  match n with
  | O => 0
  | S n' => (m !!! a) mod 256 + 256 * load_le n' (a + 1) m
  end.

(** [memcpy] and [memset], byte by byte from the low address. *)
Fixpoint copy_bytes (n : nat) (dst src : Z) (m : gmap Z Z) : gmap Z Z :=
  match n with
  | O => m
  | S n' => copy_bytes n' (dst + 1) (src + 1) (<[dst := m !!! src]> m)
  end.

Fixpoint fill_bytes (n : nat) (dst c : Z) (m : gmap Z Z) : gmap Z Z :=
  match n with
  | O => m
  | S n' => fill_bytes n' (dst + 1) c (<[dst := c mod 256]> m)
  end.

Definition memcpy (dst src n : Z) (p : process) : result process :=
  if n =? 0 then Ret p
  else if valid (os p) dst n && valid (os p) src n
  then Ret (set_mem (copy_bytes (Z.to_nat n) dst src (mem p)) p)
  else Undef.

Definition memset (dst c n : Z) (p : process) : result process :=
  if n =? 0 then Ret p
  else if valid (os p) dst n
  then Ret (set_mem (fill_bytes (Z.to_nat n) dst c (mem p)) p)
  else Undef.

Section WithAbi.

Variable abi : Abi.

(** Width of [size_t] and of pointers. *)
Definition size_bits : Z := match abi with ILP32 => 32 | LP64 => 64 end.

Definition sizeof_size_t : nat := match abi with ILP32 => 4%nat | LP64 => 8%nat end.

(** [sizeof(ObjectHeader)]: an [int] and a [size_t], the latter aligned. *)
Definition sizeof_ObjectHeader : Z := match abi with ILP32 => 8 | LP64 => 16 end.

Definition offsetof_flags : Z := 0.

Definition offsetof_objectSize : Z := match abi with ILP32 => 4 | LP64 => 8 end.

(** Scalars in memory: an access to bytes that are not mapped is
    undefined. *)
Definition store_int (a v : Z) (p : process) : result process :=
  if valid (os p) a 4 then Ret (set_mem (store_le 4 a (wrap 32 v) (mem p)) p)
  else Undef.


Definition store_size_t (a v : Z) (p : process) : result process :=
  if valid (os p) a (Z.of_nat sizeof_size_t)
  then Ret (set_mem (store_le sizeof_size_t a (wrap size_bits v) (mem p)) p)
  else Undef.

Definition load_size_t (a : Z) (p : process) : result Z :=
  if valid (os p) a (Z.of_nat sizeof_size_t)
  then Ret (load_le sizeof_size_t a (mem p))
  else Undef.

(** The counters are [int]; [x++] is taken with two's-complement wrap. *)
Definition incr (x : Z) : Z := to_signed 32 (x + 1).

Definition increaseMallocCalls (p : process) : process :=
  let a := TheAllocator p in
  set_allocator
    {| _heapSize := _heapSize a; _initialized := _initialized a;
       _verbose := _verbose a; _mallocCalls := incr (_mallocCalls a);
       _freeCalls := _freeCalls a; _reallocCalls := _reallocCalls a;
       _callocCalls := _callocCalls a |} p.

Definition increaseReallocCalls (p : process) : process :=
  let a := TheAllocator p in
  set_allocator
    {| _heapSize := _heapSize a; _initialized := _initialized a;
       _verbose := _verbose a; _mallocCalls := _mallocCalls a;
       _freeCalls := _freeCalls a; _reallocCalls := incr (_reallocCalls a);
       _callocCalls := _callocCalls a |} p.

Definition increaseCallocCalls (p : process) : process :=
  let a := TheAllocator p in
  set_allocator
    {| _heapSize := _heapSize a; _initialized := _initialized a;
       _verbose := _verbose a; _mallocCalls := _mallocCalls a;
       _freeCalls := _freeCalls a; _reallocCalls := _reallocCalls a;
       _callocCalls := incr (_callocCalls a) |} p.

Definition increaseFreeCalls (p : process) : process :=
  let a := TheAllocator p in
  set_allocator
    {| _heapSize := _heapSize a; _initialized := _initialized a;
       _verbose := _verbose a; _mallocCalls := _mallocCalls a;
       _freeCalls := incr (_freeCalls a); _reallocCalls := _reallocCalls a;
       _callocCalls := _callocCalls a |} p.

(** [Allocator::initialize()]. *)
Definition initialize (p : process) : process :=
  let a := TheAllocator p in
  let verbose :=
    match MALLOCVERBOSE p with
    | Some envverbose => if String.eqb envverbose "NO" then 0 else 1
    | None => 1
    end in
  {| TheAllocator :=
       {| _heapSize := _heapSize a; _initialized := 1; _verbose := verbose;
          _mallocCalls := _mallocCalls a; _freeCalls := _freeCalls a;
          _reallocCalls := _reallocCalls a; _callocCalls := _callocCalls a |};
     os := os p; mem := mem p; MALLOCVERBOSE := MALLOCVERBOSE p;
     atexit_handlers := S (atexit_handlers p) |}.

(** [Allocator::getMemoryFromOS(size)]; [sbrk] takes an [intptr_t]. *)
Definition getMemoryFromOS (size : Z) (p : process) : Z * process :=
  let a := TheAllocator p in
  let p :=
    set_allocator
      {| _heapSize := wrap size_bits (_heapSize a + size);
         _initialized := _initialized a; _verbose := _verbose a;
         _mallocCalls := _mallocCalls a; _freeCalls := _freeCalls a;
         _reallocCalls := _reallocCalls a; _callocCalls := _callocCalls a |} p in
  let '(r, o) := sbrk size_bits (to_signed size_bits size) (os p) in
  (r, set_os o p).

(** [(size + sizeof(ObjectHeader) + 7) & ~7] in [size_t]. *)
Definition totalSize (size : Z) : Z :=
  Z.land (wrap size_bits (size + sizeof_ObjectHeader + 7))
         (wrap size_bits (Z.lnot 7)).

(** [Allocator::allocateObject(size)]. *)
Definition allocateObject (size : Z) (p : process) : result (Z * process) :=
  let p := if _initialized (TheAllocator p) =? 0 then initialize p else p in
  let '(mem_, p) := getMemoryFromOS (totalSize size) p in
  let o := mem_ in
  do p <- store_size_t (o + offsetof_objectSize) (totalSize size) p ;
  do p <- store_int (o + offsetof_flags) ObjAllocated p ;
  Ret (o + sizeof_ObjectHeader, p).

(** [Allocator::freeObject(ptr)]: the body is empty. *)
Definition freeObject (ptr : Z) (p : process) : process := p.

(** [Allocator::objectSize(ptr)]. *)
Definition objectSize (ptr : Z) (p : process) : result Z :=
  let o := ptr - sizeof_ObjectHeader in
  do sz <- load_size_t (o + offsetof_objectSize) p ;
  Ret (wrap size_bits (sz - sizeof_ObjectHeader)).

(** The C interface. *)
Definition malloc (size : Z) (p : process) : result (Z * process) :=
  allocateObject size (increaseMallocCalls p).

Definition free (ptr : Z) (p : process) : process :=
  let p := increaseFreeCalls p in
  if ptr =? 0 then p else freeObject ptr p.

Definition realloc (ptr size : Z) (p : process) : result (Z * process) :=
  let p := increaseReallocCalls p in
  do '(newptr, p) <- allocateObject size p ;
  if ptr =? 0 then Ret (newptr, p)
  else
    do sizeToCopy <- objectSize ptr p ;
    let sizeToCopy := if sizeToCopy >? size then size else sizeToCopy in
    do p <- memcpy newptr ptr sizeToCopy p ;
    Ret (newptr, freeObject ptr p).

Definition calloc (nelem elsize : Z) (p : process) : result (Z * process) :=
  let p := increaseCallocCalls p in
  let size := wrap size_bits (nelem * elsize) in
  do '(ptr, p) <- allocateObject size p ;
  if ptr =? 0 then Ret (ptr, p)
  else
    do p <- memset ptr 0 size p ;
    Ret (ptr, p).

(** [ptr] is the payload of an object whose header lies in the segment and
    whose payload of [m] bytes ends at or before the break. *)
Definition live (p : process) (ptr m : Z) : Prop :=
  seg_base (os p) <= ptr - sizeof_ObjectHeader /\
  0 <= m /\ ptr + m <= seg_brk (os p) /\
  objectSize ptr p = Ret m.

End WithAbi.

(** A process that has not called the allocator yet. *)
Definition start (o : HeapSource) (env : option string) : process :=
  {| TheAllocator :=
       {| _heapSize := 0; _initialized := 0; _verbose := 0; _mallocCalls := 0;
          _freeCalls := 0; _reallocCalls := 0; _callocCalls := 0 |};
     os := o; mem := ∅; MALLOCVERBOSE := env; atexit_handlers := 0 |}.

End MyMalloc.

(** * The vocabulary of the properties *)

Section BlockVocabulary.

Import MallocC.

(** Address of the first header of a list of blocks, [NULL] for none. *)
Definition hd_addr (l : list (Z * block_meta)) : Z :=
  match l with
  | [] => NULL
  | (a, _) :: _ => a
  end.

(** Address of the last header, [dflt] for none. *)
Fixpoint last_addr (dflt : Z) (l : list (Z * block_meta)) : Z :=
  match l with
  | [] => dflt
  | (a, _) :: l' => last_addr a l'
  end.

(** The headers [l] are stored in [h], linked through [next] in this order,
    and laid out back to back from address [a] to address [e]. *)
Fixpoint tiles (h : gmap Z block_meta) (a : Z) (l : list (Z * block_meta))
  (e : Z) : Prop :=
  match l with
  | [] => a = e
  | (x, b) :: l' =>
      x = a /\ h !! a = Some b /\ 0 < bsize b /\ bnext b = hd_addr l' /\
      tiles h (a + META_SIZE + bsize b) l' e
  end.

(** The blocks of a state: the list hanging from [global_base], which fills
    the segment up to the break. *)
Definition heap_blocks (st : state) (l : list (Z * block_meta)) : Prop :=
  seg_ok ptr_bits (os st) /\ global_base st = hd_addr l /\
  exists a0, seg_base (os st) <= a0 /\
             tiles (blocks st) a0 l (seg_brk (os st)).

(** A list of blocks hanging from [global_base] whose headers lie in mapped
    memory; it need not end at the break. *)
Definition linked_blocks (st : state) (l : list (Z * block_meta)) : Prop :=
  page_size <= seg_base (os st) /\ global_base st = hd_addr l /\
  List.Forall (fun yb => valid (os st) (fst yb) META_SIZE = true) l /\
  exists a0 e, tiles (blocks st) a0 l e.

(** The span of a block, header included, and the total a request needs:
    what [request_space] asks [sbrk] for. *)
Definition block_span (b : block_meta) : Z := META_SIZE + bsize b.

Definition required_total (size : Z) : Z := size + META_SIZE.

(** A block satisfies a request when it is free and spans the total. *)
Definition fits (size : Z) (b : block_meta) : bool :=
  negb (bfree b =? 0) && (required_total size <=? block_span b).

(** First fit over the blocks in list order. *)
Definition first_fit (size : Z) (l : list (Z * block_meta))
  : option (Z * block_meta) :=
  List.find (fun xb => fits size (snd xb)) l.

(** The value the search leaves in [last]. *)
Fixpoint last_visited (size : Z) (l : list (Z * block_meta)) (last : Z) : Z :=
  match l with
  | [] => last
  | (x, b) :: l' => if fits size b then last else last_visited size l' x
  end.

(** What [malloc] does to the header of a block it hands out again. *)
Definition taken (b : block_meta) : block_meta :=
  set_magic 0x77777777 (set_free 0 b).

(** The state after [malloc] hands out the block [b] found at [x]. *)
Definition mark_used (x : Z) (b : block_meta) (st : state) : state :=
  {| global_base := global_base st;
     blocks := <[x := taken b]> (blocks st);
     os := os st |}.

(** The path of [malloc] that asks the operating system. *)
Definition grow (st : state) (last size : Z) : result (Z * state) :=
  do '(block, st') <- request_space st last size ;
  if block =? NULL then Ret (NULL, st')
  else Ret (block + META_SIZE,
            if global_base st =? NULL then set_global_base block st'
            else st').

(** What [free] does to the header of a block. *)
Definition released (b : block_meta) : block_meta :=
  set_magic 0x55555555 (set_free 1 b).

(** The list of blocks with the header at [x] replaced by [f] of it. *)
Definition update_block (x : Z) (f : block_meta -> block_meta)
  (l : list (Z * block_meta)) : list (Z * block_meta) :=
  List.map (fun yb => if fst yb =? x then (fst yb, f (snd yb)) else yb) l.

(** Two blocks of which the second starts where the first ends, both free. *)
Definition adjacent_free (h : gmap Z block_meta) (a a' : Z) : Prop :=
  exists b b', h !! a = Some b /\ h !! a' = Some b' /\
               a' = a + block_span b /\ bfree b <> 0 /\ bfree b' <> 0.

(** The header [request_space] writes. *)
Definition fresh_block (size : Z) : block_meta :=
  {| bsize := size; bnext := NULL; bfree := 0; bmagic := 0x12345678 |}.

(** The [int] that [request_space] passes to [sbrk]. *)
Definition sbrk_argument (size : Z) : Z :=
  to_signed 32 (wrap 32 (size + META_SIZE)).

(** The headers after [last->next = e], for [last] other than [NULL]. *)
Definition linked (last e : Z) (h : gmap Z block_meta) : gmap Z block_meta :=
  if last =? NULL then h
  else <[last := set_next e (default unwritten (h !! last))]> h.

(** The state [request_space(last, size)] leaves when it returns: the header
    of the new block is written at the break [sbrk(0)] returned, linked
    behind [last], and the segment is [o]. *)
Definition extended (st : state) (last size : Z) (o : HeapSource) : state :=
  {| global_base := global_base st;
     blocks := <[seg_brk (os st) := fresh_block size]>
                 (linked last (seg_brk (os st)) (blocks st));
     os := o |}.

(** A segment of one page, nothing allocated yet. *)
Definition one_page : HeapSource :=
  {| seg_base := 4096; seg_brk := 4096; seg_limit := 8192 |}.

(** Two blocks of 8 bytes, the first released. *)
Definition two_blocks : list (Z * block_meta) :=
  [(4096, {| bsize := 8; bnext := 4120; bfree := 1; bmagic := 0x55555555 |});
   (4120, {| bsize := 8; bnext := 0; bfree := 0; bmagic := 0x12345678 |})].

Definition two_blocks_state : state :=
  {| global_base := 4096;
     blocks := list_to_map two_blocks;
     os := {| seg_base := 4096; seg_brk := 4144; seg_limit := 8192 |} |}.

(** The list of blocks with the link of its last header set to [e]. *)
Fixpoint link_last (e : Z) (l : list (Z * block_meta))
  : list (Z * block_meta) :=
  match l with
  | [] => []
  | (z, b) :: l' =>
      match l' with
      | [] => [(z, set_next e b)]
      | _ :: _ => (z, b) :: link_last e l'
      end
  end.

End BlockVocabulary.

Section ObjectVocabulary.

Import MyMalloc.

(** The process on which [allocateObject] works after its first lines. *)
Definition initialized (p : process) : process :=
  if _initialized (TheAllocator p) =? 0 then initialize p else p.

(** The bytes of memory after the header of a new object is written at
    [o]. *)
Definition with_header (abi : Abi) (o total : Z) (m : gmap Z Z) : gmap Z Z :=
  store_le 4 (o + offsetof_flags) (wrap 32 ObjAllocated)
    (store_le (sizeof_size_t abi) (o + offsetof_objectSize abi)
       (wrap (size_bits abi) total) m).

(** A segment with no room left. *)
Definition full_page : HeapSource :=
  {| seg_base := 4096; seg_brk := 8192; seg_limit := 8192 |}.

(** A process on LP64 with one object of 8 bytes, its payload written. *)
Definition one_object : process :=
  match malloc LP64 8 (start one_page None) with
  | Ret (q, p) => set_mem (store_le 8 q 0x1122334455667788 (mem p)) p
  | Undef | OutOfFuel => start one_page None
  end.

(** The process after [allocateObject(size)] has returned: the allocator is
    initialized, [_heapSize] has grown by the total, the break has moved by
    the total read as an [intptr_t] and the header is written at the old
    break. *)
Definition allocated (abi : Abi) (size : Z) (p : process) : process :=
  let p0 := initialized p in
  let a := TheAllocator p0 in
  {| TheAllocator :=
       {| _heapSize := wrap (size_bits abi) (_heapSize a + totalSize abi size);
          _initialized := _initialized a; _verbose := _verbose a;
          _mallocCalls := _mallocCalls a; _freeCalls := _freeCalls a;
          _reallocCalls := _reallocCalls a; _callocCalls := _callocCalls a |};
     os := moved (os p) (to_signed (size_bits abi) (totalSize abi size));
     mem := with_header abi (seg_brk (os p)) (totalSize abi size) (mem p);
     MALLOCVERBOSE := MALLOCVERBOSE p;
     atexit_handlers := atexit_handlers p0 |}.

(** The four call counters: mallocs, frees, reallocs, callocs. *)
Definition counters (p : process) : Z * Z * Z * Z :=
  let a := TheAllocator p in
  (_mallocCalls a, _freeCalls a, _reallocCalls a, _callocCalls a).

End ObjectVocabulary.

(** * Running the programs on concrete inputs *)

(** [evaluate] closes [call = outcome] by running the call; what the
    outcome leaves open is filled with the value computed. *)
Ltac evaluate :=
  lazymatch goal with
  | |- ?call = _ =>
      let v := eval vm_compute in call in
      transitivity v; [vm_compute; reflexivity | reflexivity]
  end.

(** * Mapped memory *)

Section Pages.

Lemma page_end_ge x : x <= page_end x.
Proof.
  unfold page_end, page_size.
  pose proof (Z.div_mod (x + 4096 - 1) 4096).
  pose proof (Z.mod_pos_bound (x + 4096 - 1) 4096). lia.
Qed.

Lemma page_end_lt x : page_end x < x + page_size.
Proof.
  unfold page_end, page_size.
  pose proof (Z.div_mod (x + 4096 - 1) 4096).
  pose proof (Z.mod_pos_bound (x + 4096 - 1) 4096). lia.
Qed.

Lemma page_end_mono x y : x <= y -> page_end x <= page_end y.
Proof.
  intros H. unfold page_end, page_size.
  apply Z.mul_le_mono_nonneg_l; [lia|]. apply Z.div_le_mono; lia.
Qed.

Lemma valid_true o a len :
  valid o a len = true <->
  seg_base o <= a /\ a + len <= page_end (seg_brk o).
Proof. unfold valid. rewrite andb_true_iff, !Z.leb_le. tauto. Qed.

Lemma valid_false o a len :
  page_end (seg_brk o) < a + len -> valid o a len = false.
Proof.
  intros H. unfold valid.
  replace (a + len <=? page_end (seg_brk o)) with false
    by (symmetry; apply Z.leb_gt; lia).
  apply andb_false_r.
Qed.

(** Memory below the break is mapped. *)
Lemma valid_below o a len :
  seg_base o <= a -> a + len <= seg_brk o -> valid o a len = true.
Proof.
  intros H1 H2. apply valid_true. pose proof (page_end_ge (seg_brk o)). lia.
Qed.

Lemma valid_moved o a len n :
  0 <= n -> valid o a len = true -> valid (moved o n) a len = true.
Proof.
  intros Hn V. apply valid_true in V. apply valid_true.
  cbn [moved seg_base seg_brk].
  pose proof (page_end_mono (seg_brk o) (seg_brk o + n)). lia.
Qed.

Lemma seg_ok_moved w o n :
  seg_ok w o -> seg_base o <= seg_brk o + n <= seg_limit o ->
  seg_ok w (moved o n).
Proof.
  intros (H1 & H2 & H3 & H4) Hn. unfold seg_ok, moved.
  cbn [seg_base seg_brk seg_limit]. repeat split; auto; lia.
Qed.

End Pages.

(** * The block list of src/malloc.c *)

Section BlockList.

Import MallocC.

Lemma fits_code size b :
  fits size b = negb (bfree b =? 0) && (size <=? bsize b).
Proof.
  unfold fits, required_total, block_span, META_SIZE.
  f_equal. apply eq_true_iff_eq. rewrite !Z.leb_le. lia.
Qed.

Lemma tiles_le h l : forall a e, tiles h a l e -> a <= e.
Proof.
  induction l as [|[x b] l IH]; simpl; intros a e H.
  - lia.
  - destruct H as (_ & _ & Hs & _ & Ht). apply IH in Ht.
    unfold META_SIZE in *. lia.
Qed.

Lemma tiles_head_fits h x b l a e :
  tiles h a ((x, b) :: l) e -> x = a /\ a + META_SIZE < e.
Proof.
  simpl. intros (Hx & _ & Hs & _ & Ht). apply tiles_le in Ht.
  unfold META_SIZE in *. lia.
Qed.

Lemma tiles_bounds h l : forall a e x b,
  tiles h a l e -> In (x, b) l ->
  a <= x /\ x + META_SIZE + bsize b <= e /\ h !! x = Some b /\ 0 < bsize b.
Proof.
  induction l as [|[y c] l IH]; simpl; intros a e x b H Hin; [easy|].
  destruct H as (Hy & Hl & Hs & Hn & Ht).
  destruct Hin as [Heq | Hin].
  - inversion Heq; subst. apply tiles_le in Ht. repeat split; auto; lia.
  - destruct (IH _ _ _ _ Ht Hin) as (H1 & H2 & H3 & H4).
    unfold META_SIZE in *. repeat split; auto; lia.
Qed.

(** Link order is ascending address order. *)
Lemma tiles_ascending h l : forall a e,
  tiles h a l e -> StronglySorted Z.lt (List.map fst l).
Proof.
  induction l as [|[y c] l IH]; simpl; intros a e H.
  - constructor.
  - destruct H as (Hy & Hl & Hs & Hn & Ht). constructor.
    + eapply IH; eauto.
    + rewrite List.Forall_forall. intros z Hz.
      apply List.in_map_iff in Hz. destruct Hz as ([z' b'] & Hz & Hin).
      simpl in Hz; subst z'.
      destruct (tiles_bounds _ _ _ _ _ _ Ht Hin) as (H1 & _).
      unfold META_SIZE in *. lia.
Qed.

(** The blocks of a list that fills the segment have their headers in
    mapped memory. *)
Lemma heap_linked st l : heap_blocks st l -> linked_blocks st l.
Proof.
  intros (Hok & Hg & a0 & Hb & Ht). unfold linked_blocks.
  split; [apply Hok|]. split; [exact Hg|]. split; [|eauto].
  rewrite List.Forall_forall. intros [x b] Hin. cbn [fst].
  destruct (tiles_bounds _ _ _ _ _ _ Ht Hin) as (H1 & H2 & _ & H4).
  apply valid_below; unfold META_SIZE in *; lia.
Qed.

Lemma load_block st l x b :
  linked_blocks st l -> In (x, b) l -> load st x = Ret b /\ x <> NULL.
Proof.
  intros (Hp & _ & Hr & a0 & e & Ht) Hin.
  destruct (tiles_bounds _ _ _ _ _ _ Ht Hin) as (_ & _ & H3 & _).
  rewrite List.Forall_forall in Hr. pose proof (Hr _ Hin) as V.
  cbn [fst] in V. split.
  - unfold load. now rewrite V, H3.
  - apply valid_true in V. unfold NULL, page_size in *. lia.
Qed.

(** The loop of [find_free_block] on a linked list of readable headers: it
    stops at the first block that fits, or at [NULL] after the last block. *)
Lemma find_loop_tiles st size l : forall fuel a e last,
  page_size <= seg_base (os st) ->
  tiles (blocks st) a l e ->
  List.Forall (fun yb => valid (os st) (fst yb) META_SIZE = true) l ->
  (length l < fuel)%nat ->
  find_loop fuel st (hd_addr l) last size =
  Ret (match first_fit size l with Some (x, _) => x | None => NULL end,
       last_visited size l last).
Proof.
  induction l as [|[x b] l IH]; intros fuel a e last Hpos Ht Hr Hfuel.
  - destruct fuel; [simpl in Hfuel; lia|]. reflexivity.
  - destruct fuel; [simpl in Hfuel; lia|].
    inversion Hr as [|yb l' V Hr']; subst yb l'. cbn [fst] in V.
    simpl in Ht. destruct Ht as (-> & Hl & Hs & Hn & Ht).
    assert (Hld : load st a = Ret b) by (unfold load; now rewrite V, Hl).
    apply valid_true in V.
    cbn [find_loop hd_addr].
    replace (a =? NULL) with false
      by (symmetry; apply Z.eqb_neq; unfold NULL, page_size in *; lia).
    rewrite Hld. cbn [bind]. rewrite <- fits_code.
    unfold first_fit. cbn [List.find snd last_visited].
    destruct (fits size b); cbn [negb]; [reflexivity|].
    rewrite Hn. apply (IH fuel (a + META_SIZE + bsize b) e a); auto.
    simpl in Hfuel. lia.
Qed.

Lemma last_visited_none size l : forall last,
  first_fit size l = None -> last_visited size l last = last_addr last l.
Proof.
  induction l as [|[x b] l IH]; intros last H; [reflexivity|].
  unfold first_fit in *. cbn [List.find snd] in H. cbn [last_visited last_addr].
  destruct (fits size b); [discriminate|]. now apply IH.
Qed.

Lemma first_fit_split size l x b :
  first_fit size l = Some (x, b) ->
  fits size b = true /\
  exists l1 l2, l = l1 ++ (x, b) :: l2 /\
                List.Forall (fun yb => fits size (snd yb) = false) l1.
Proof.
  unfold first_fit. induction l as [|[y c] l IH]; [discriminate|].
  cbn [List.find snd]. destruct (fits size c) eqn:Hc.
  - intros H; inversion H; subst. split; [assumption|].
    exists [], l. split; [reflexivity|constructor].
  - intros H. destruct (IH H) as (Hf & l1 & l2 & -> & Hall).
    split; [assumption|]. exists ((y, c) :: l1), l2.
    split; [reflexivity|]. constructor; assumption.
Qed.

Lemma first_fit_none size l :
  first_fit size l = None ->
  List.Forall (fun yb => fits size (snd yb) = false) l.
Proof.
  unfold first_fit. induction l as [|[y c] l IH]; [constructor|].
  cbn [List.find snd]. destruct (fits size c) eqn:Hc; [discriminate|].
  intros H. constructor; auto.
Qed.

Lemma assign_block st x b f :
  load st x = Ret b ->
  assign st x f = Ret {| global_base := global_base st;
                         blocks := <[x := f b]> (blocks st); os := os st |}.
Proof.
  unfold load, assign. destruct (valid (os st) x META_SIZE); [|discriminate].
  destruct (blocks st !! x) as [c|]; [|discriminate].
  intros H; inversion H; subst. reflexivity.
Qed.

(** Two assignments to fields of the header at [x]. *)
Lemma assign_twice st x b f g :
  load st x = Ret b ->
  (do st' <- assign st x f ; assign st' x g) =
  Ret {| global_base := global_base st;
         blocks := <[x := g (f b)]> (blocks st); os := os st |}.
Proof.
  intros Hl. rewrite (assign_block st x b f Hl). cbn [bind].
  unfold load, assign in *. cbn [os blocks global_base].
  destruct (valid (os st) x META_SIZE); [|discriminate].
  rewrite lookup_insert_eq. cbn [default]. now rewrite insert_insert_eq.
Qed.

Lemma assign_twice_then {A : Type} st x b f g (k : state -> result A) :
  load st x = Ret b ->
  (do st1 <- assign st x f ; do st2 <- assign st1 x g ; k st2) =
  k {| global_base := global_base st;
       blocks := <[x := g (f b)]> (blocks st); os := os st |}.
Proof.
  intros Hl. pose proof (assign_twice st x b f g Hl) as H.
  destruct (assign st x f) as [st1| |]; cbn [bind] in *; try discriminate.
  now rewrite H.
Qed.

Lemma linked_base st l :
  linked_blocks st l -> l <> [] -> global_base st <> NULL.
Proof.
  intros Hh Hne. destruct l as [|[y c] l']; [congruence|].
  destruct (load_block st _ y c Hh (or_introl eq_refl)) as (_ & Hy).
  destruct Hh as (_ & Hg & _). now rewrite Hg.
Qed.

Lemma find_free_block_linked fuel st l size last :
  linked_blocks st l -> (length l < fuel)%nat ->
  find_free_block fuel st last size =
  Ret (match first_fit size l with Some (x, _) => x | None => NULL end,
       last_visited size l last).
Proof.
  intros (Hp & Hg & Hr & a0 & e & Ht) Hfuel.
  unfold find_free_block. rewrite Hg.
  now apply (find_loop_tiles st size l fuel a0 e).
Qed.

Lemma malloc_found fuel st l size x b :
  linked_blocks st l -> 0 < size -> (length l < fuel)%nat ->
  first_fit size l = Some (x, b) ->
  malloc fuel size st = Ret (x + META_SIZE, mark_used x b st).
Proof.
  intros Hh Hsz Hfuel Hff.
  destruct (first_fit_split _ _ _ _ Hff) as (Hfit & l1 & l2 & Hl & _).
  assert (Hin : In (x, b) l) by (subst l; apply in_or_app; right; now left).
  destruct (load_block st l x b Hh Hin) as (Hld & Hx).
  unfold malloc.
  replace (size <=? 0) with false by (symmetry; apply Z.leb_gt; lia).
  assert (Hne : l <> []) by (intros ->; destruct l1; discriminate).
  replace (global_base st =? NULL) with false
    by (symmetry; apply Z.eqb_neq; eapply linked_base; eauto).
  rewrite (find_free_block_linked fuel st l size _ Hh Hfuel), Hff.
  cbn [bind].
  replace (x =? NULL) with false by (symmetry; now apply Z.eqb_neq).
  now rewrite (assign_twice_then st x b _ _ _ Hld).
Qed.

Lemma malloc_not_found fuel st l size :
  linked_blocks st l -> 0 < size -> (length l < fuel)%nat ->
  first_fit size l = None ->
  malloc fuel size st = grow st (last_addr NULL l) size.
Proof.
  intros Hh Hsz Hfuel Hff.
  unfold malloc, grow.
  replace (size <=? 0) with false by (symmetry; apply Z.leb_gt; lia).
  destruct l as [|[y c] l'].
  - destruct Hh as (_ & Hg & _).
    simpl in Hg. rewrite Hg. cbn [hd_addr last_addr Z.eqb NULL].
    destruct (request_space st 0 size) as [[blk st']| |]; reflexivity.
  - replace (global_base st =? NULL) with false
      by (symmetry; apply Z.eqb_neq; eapply linked_base; eauto; discriminate).
    rewrite (find_free_block_linked fuel st _ size _ Hh Hfuel), Hff.
    rewrite (last_visited_none _ _ _ Hff). cbn [bind].
    replace (NULL =? NULL) with true by reflexivity.
    destruct Hh as (_ & -> & _).
    cbn [last_addr hd_addr].
    destruct (request_space st (last_addr y l') size) as [[blk st']| |];
      reflexivity.
Qed.

End BlockList.

(** * Release and reuse in src/malloc.c *)

Section ReleaseReuse.

Import MallocC.

Lemma hd_addr_update x f l : hd_addr (update_block x f l) = hd_addr l.
Proof.
  destruct l as [|[y c] l]; [reflexivity|].
  unfold update_block. cbn [List.map fst snd hd_addr].
  destruct (y =? x); reflexivity.
Qed.

Lemma update_block_length x f l : length (update_block x f l) = length l.
Proof. unfold update_block. apply length_map. Qed.

(** Rewriting one header in place, with its size and link kept, keeps the
    layout of the list. *)
Lemma tiles_update h x b f l :
  (forall c, bsize (f c) = bsize c /\ bnext (f c) = bnext c) ->
  h !! x = Some b ->
  forall a e, tiles h a l e ->
              tiles (<[x := f b]> h) a (update_block x f l) e.
Proof.
  intros Hf Hx. induction l as [|[y c] l IH]; intros a e Ht.
  - exact Ht.
  - simpl in Ht. destruct Ht as (-> & Hl & Hs & Hn & Ht).
    unfold update_block. cbn [List.map fst snd]. fold (update_block x f l).
    destruct (Z.eqb_spec a x) as [->|Hne].
    + assert (c = b) by congruence. subst c.
      destruct (Hf b) as (Hfs & Hfn). cbn [tiles].
      rewrite lookup_insert_eq, Hfs, Hfn, hd_addr_update.
      repeat split; auto.
    + cbn [tiles]. rewrite lookup_insert_ne by congruence.
      rewrite hd_addr_update. repeat split; auto.
Qed.

Lemma update_block_addresses (P : Z -> Prop) x f l :
  List.Forall (fun yb => P (fst yb)) l ->
  List.Forall (fun yb => P (fst yb)) (update_block x f l).
Proof.
  unfold update_block. rewrite !List.Forall_forall. intros H yb Hin.
  apply List.in_map_iff in Hin. destruct Hin as (zc & <- & Hin).
  specialize (H _ Hin). now destruct (fst zc =? x).
Qed.

Lemma heap_blocks_update st l x b f :
  (forall c, bsize (f c) = bsize c /\ bnext (f c) = bnext c) ->
  heap_blocks st l -> In (x, b) l ->
  heap_blocks {| global_base := global_base st;
                 blocks := <[x := f b]> (blocks st); os := os st |}
              (update_block x f l).
Proof.
  intros Hf (Hok & Hg & a0 & Hb & Ht) Hin.
  destruct (tiles_bounds _ _ _ _ _ _ Ht Hin) as (_ & _ & Hx & _).
  unfold heap_blocks. cbn [global_base blocks os].
  rewrite hd_addr_update.
  split; [exact Hok|]. split; [exact Hg|].
  exists a0. split; [assumption|]. now apply tiles_update.
Qed.

Lemma linked_blocks_update st l x b f :
  (forall c, bsize (f c) = bsize c /\ bnext (f c) = bnext c) ->
  linked_blocks st l -> In (x, b) l ->
  linked_blocks {| global_base := global_base st;
                   blocks := <[x := f b]> (blocks st); os := os st |}
                (update_block x f l).
Proof.
  intros Hf (Hp & Hg & Hr & a0 & e & Ht) Hin.
  destruct (tiles_bounds _ _ _ _ _ _ Ht Hin) as (_ & _ & Hx & _).
  unfold linked_blocks. cbn [global_base blocks os].
  rewrite hd_addr_update.
  split; [exact Hp|]. split; [exact Hg|].
  split; [now apply (update_block_addresses
                       (fun y => valid (os st) y META_SIZE = true))|].
  exists a0, e. now apply tiles_update.
Qed.

Lemma update_block_sizes x f l :
  (forall c, bsize (f c) = bsize c /\ bnext (f c) = bnext c) ->
  List.map (fun yb => (fst yb, bsize (snd yb))) (update_block x f l) =
  List.map (fun yb => (fst yb, bsize (snd yb))) l.
Proof.
  intros Hf. unfold update_block. rewrite List.map_map.
  apply List.map_ext. intros [y c]. cbn [fst snd].
  destruct (y =? x); cbn [fst snd]; [|reflexivity].
  now destruct (Hf c) as (-> & _).
Qed.

Lemma update_block_In x b f l :
  In (x, b) l -> In (x, f b) (update_block x f l).
Proof.
  intros Hin. unfold update_block. apply List.in_map_iff.
  exists (x, b). cbn [fst snd]. rewrite Z.eqb_refl. auto.
Qed.

Lemma released_keeps c :
  bsize (released c) = bsize c /\ bnext (released c) = bnext c.
Proof. split; reflexivity. Qed.

Lemma taken_keeps c :
  bsize (taken c) = bsize c /\ bnext (taken c) = bnext c.
Proof. split; reflexivity. Qed.

Lemma free_block st l x b :
  linked_blocks st l -> In (x, b) l ->
  free (x + META_SIZE) st =
  Ret {| global_base := global_base st;
         blocks := <[x := released b]> (blocks st); os := os st |}.
Proof.
  intros Hh Hin.
  destruct (load_block st l x b Hh Hin) as (Hld & Hx).
  assert (Hpos : 0 < x).
  { unfold load in Hld.
    destruct (valid (os st) x META_SIZE) eqn:V; [|discriminate].
    apply valid_true in V. destruct Hh as (Hp & _).
    unfold page_size in Hp. lia. }
  unfold free, get_block_ptr.
  replace (x + META_SIZE =? NULL) with false
    by (symmetry; apply Z.eqb_neq; unfold NULL, META_SIZE; lia).
  replace (x + META_SIZE - META_SIZE) with x by lia.
  now apply assign_twice.
Qed.

Lemma first_fit_some size l x b :
  In (x, b) l -> fits size b = true ->
  exists y c, first_fit size l = Some (y, c).
Proof.
  intros Hin Hfit. unfold first_fit.
  destruct (List.find (fun xb => fits size (snd xb)) l) as [[y c]|] eqn:E.
  - eauto.
  - pose proof (List.find_none _ _ E _ Hin) as H. cbn [snd] in H. congruence.
Qed.

Lemma heap_blocks_initial o :
  seg_ok ptr_bits o -> heap_blocks (initial o) [].
Proof.
  intros Hok. unfold heap_blocks, initial. cbn [global_base blocks os].
  split; [exact Hok|]. split; [reflexivity|].
  exists (seg_brk o). simpl.
  destruct Hok as (_ & H & _). auto.
Qed.

End ReleaseReuse.

(** * Growing the list in src/malloc.c *)

Section Growth.

Import MallocC.

(** [brk(0)] moves nothing and yields the break. *)
Lemma brk_zero o : 0 < seg_base o -> brk 0 o = (seg_brk o, o).
Proof.
  intros H. unfold brk.
  replace (seg_base o <=? 0) with false by (symmetry; apply Z.leb_gt; lia).
  reflexivity.
Qed.

(** [sbrk] returns the old break in every case; the break moves when the
    operating system allows it. *)
Lemma sbrk_result size o :
  0 < seg_base o ->
  sbrk size o =
  (seg_brk o,
   if (seg_base o <=? seg_brk o + size) && (seg_brk o + size <=? seg_limit o)
   then moved o size else o).
Proof.
  intros H. unfold sbrk. rewrite (brk_zero o H). unfold brk, moved.
  destruct ((seg_base o <=? seg_brk o + size) &&
            (seg_brk o + size <=? seg_limit o)); reflexivity.
Qed.

Lemma sbrk_zero w o : seg_ok w o -> sbrk 0 o = (seg_brk o, o).
Proof.
  intros (Hp & H1 & H2 & _). unfold page_size in Hp.
  rewrite sbrk_result by lia. unfold moved. rewrite Z.add_0_r.
  replace (seg_base o <=? seg_brk o) with true by (symmetry; now apply Z.leb_le).
  replace (seg_brk o <=? seg_limit o) with true by (symmetry; now apply Z.leb_le).
  destruct o; reflexivity.
Qed.

Lemma sbrk_grows w o n :
  seg_ok w o -> seg_base o <= seg_brk o + n <= seg_limit o ->
  sbrk n o = (seg_brk o, moved o n).
Proof.
  intros (Hp & _) (H1 & H2). unfold page_size in Hp.
  rewrite sbrk_result by lia.
  replace (seg_base o <=? seg_brk o + n) with true by (symmetry; now apply Z.leb_le).
  replace (seg_brk o + n <=? seg_limit o) with true by (symmetry; now apply Z.leb_le).
  reflexivity.
Qed.

Lemma sbrk_refused w o n :
  seg_ok w o -> ~ seg_base o <= seg_brk o + n <= seg_limit o ->
  sbrk n o = (seg_brk o, o).
Proof.
  intros (Hp & _) Hn. unfold page_size in Hp.
  rewrite sbrk_result by lia.
  destruct (Z.leb_spec (seg_base o) (seg_brk o + n));
    destruct (Z.leb_spec (seg_brk o + n) (seg_limit o)); cbn [andb];
    try reflexivity.
  exfalso. apply Hn. lia.
Qed.

Lemma sbrk_cases w o n :
  seg_ok w o ->
  (seg_base o <= seg_brk o + n <= seg_limit o /\
   sbrk n o = (seg_brk o, moved o n)) \/
  (~ seg_base o <= seg_brk o + n <= seg_limit o /\
   sbrk n o = (seg_brk o, o)).
Proof.
  intros Hok.
  destruct (Z_le_dec (seg_base o) (seg_brk o + n));
    destruct (Z_le_dec (seg_brk o + n) (seg_limit o));
    try (right; split; [lia|apply (sbrk_refused w); auto; lia]).
  left. split; [lia|]. apply (sbrk_grows w); auto.
Qed.

Lemma int_increment size :
  0 < size -> size + META_SIZE < 2 ^ 31 ->
  sbrk_argument size = size + META_SIZE.
Proof.
  unfold sbrk_argument, to_signed, wrap, META_SIZE. intros H1 H2.
  change (2 ^ (32 - 1)) with 2147483648 in *. change (2 ^ 31) with 2147483648 in *.
  change (2 ^ 32) with 4294967296.
  rewrite (Z.mod_small (size + 16)) by lia. rewrite Z.mod_small by lia. lia.
Qed.

Lemma int_increment_neg size :
  size < 2 ^ 31 -> 2 ^ 31 <= size + META_SIZE ->
  sbrk_argument size = size + META_SIZE - 2 ^ 32.
Proof.
  unfold sbrk_argument, to_signed, wrap, META_SIZE. intros H1 H2.
  change (2 ^ (32 - 1)) with 2147483648 in *. change (2 ^ 31) with 2147483648 in *.
  change (2 ^ 32) with 4294967296.
  rewrite (Z.mod_small (size + 16)) by lia.
  replace (size + 16 + 2147483648) with (size + 16 - 2147483648 + 1 * 4294967296) by lia.
  rewrite Z.mod_add by lia. rewrite Z.mod_small by lia. lia.
Qed.

Lemma set_os_same st : set_os (os st) st = st.
Proof. destruct st; reflexivity. Qed.

Lemma assign_os st a f st' : assign st a f = Ret st' -> os st' = os st.
Proof.
  unfold assign. destruct (valid (os st) a META_SIZE); [|discriminate].
  intros H; inversion H; reflexivity.
Qed.

Lemma assign_valid st a f :
  valid (os st) a META_SIZE = true ->
  assign st a f =
  Ret {| global_base := global_base st;
         blocks := <[a := f (default unwritten (blocks st !! a))]> (blocks st);
         os := os st |}.
Proof. intros V. unfold assign. now rewrite V. Qed.

Lemma assign_invalid st a f :
  valid (os st) a META_SIZE = false -> assign st a f = Undef.
Proof. intros V. unfold assign. now rewrite V. Qed.

Lemma load_fuel st a : load st a = OutOfFuel -> False.
Proof.
  unfold load. destruct (valid (os st) a META_SIZE); [|discriminate].
  destruct (blocks st !! a); discriminate.
Qed.

Lemma assign_fuel st a f : assign st a f = OutOfFuel -> False.
Proof.
  unfold assign. destruct (valid (os st) a META_SIZE); discriminate.
Qed.

(** The four assignments of [request_space] to the new header. *)
Lemma write_fresh st a size :
  valid (os st) a META_SIZE = true ->
  (do st <- assign st a (set_size size) ;
   do st <- assign st a (set_next NULL) ;
   do st <- assign st a (set_free 0) ;
   do st <- assign st a (set_magic 0x12345678) ;
   Ret (a, st)) =
  Ret (a, {| global_base := global_base st;
             blocks := <[a := fresh_block size]> (blocks st);
             os := os st |}).
Proof.
  intros V.
  rewrite assign_valid by exact V. cbn [bind].
  rewrite assign_valid by exact V. cbn [bind global_base blocks os].
  rewrite assign_valid by exact V. cbn [bind global_base blocks os].
  rewrite assign_valid by exact V. cbn [bind global_base blocks os].
  rewrite !lookup_insert_eq, !insert_insert_eq. reflexivity.
Qed.

(** The break [sbrk] returns is never [(void* )-1]. *)
Lemma break_not_failed o :
  seg_ok ptr_bits o -> (seg_brk o =? sbrk_failed ptr_bits) = false.
Proof.
  intros (_ & _ & Ha & Hb). apply Z.eqb_neq. unfold sbrk_failed. lia.
Qed.

(** [request_space] never takes its failure branch: it writes the header at
    the break, whatever [sbrk] has done to the segment. *)
Lemma request_space_writes st last size :
  seg_ok ptr_bits (os st) ->
  let o' := snd (sbrk (sbrk_argument size) (os st)) in
  last = NULL \/ valid o' last META_SIZE = true ->
  valid o' (seg_brk (os st)) META_SIZE = true ->
  request_space st last size = Ret (seg_brk (os st), extended st last size o').
Proof.
  intros Hok o' Hlast V. unfold request_space.
  rewrite (sbrk_zero _ _ Hok). fold (sbrk_argument size).
  assert (Hs : sbrk (sbrk_argument size) (os st) = (seg_brk (os st), o')).
  { unfold o'. destruct (sbrk_cases ptr_bits (os st) (sbrk_argument size) Hok)
      as [(_ & ->) | (_ & ->)]; reflexivity. }
  rewrite Hs, (break_not_failed _ Hok).
  unfold extended, linked.
  destruct (Z.eqb_spec last NULL) as [-> | Hne].
  - cbn [bind]. rewrite write_fresh by exact V. reflexivity.
  - destruct Hlast as [Hl | Hl]; [now elim Hne|].
    rewrite assign_valid by exact Hl. cbn [bind].
    rewrite write_fresh by exact V. reflexivity.
Qed.

Lemma request_space_faults st last size :
  seg_ok ptr_bits (os st) ->
  valid (snd (sbrk (sbrk_argument size) (os st))) (seg_brk (os st)) META_SIZE
    = false ->
  request_space st last size = Undef.
Proof.
  intros Hok V. unfold request_space.
  rewrite (sbrk_zero _ _ Hok). fold (sbrk_argument size).
  destruct (sbrk (sbrk_argument size) (os st)) as [r o'] eqn:Hs.
  assert (Hr : r = seg_brk (os st)).
  { destruct (sbrk_cases ptr_bits (os st) (sbrk_argument size) Hok)
      as [(_ & E) | (_ & E)]; rewrite E in Hs; now inversion Hs. }
  subst r. cbn [snd] in V. rewrite (break_not_failed _ Hok).
  destruct (last =? NULL).
  - cbn [bind]. rewrite assign_invalid by exact V. reflexivity.
  - destruct (assign (set_os o' st) last _) as [st3| |] eqn:E; cbn [bind];
      [|reflexivity|now apply assign_fuel in E].
    apply assign_os in E. cbn [set_os os] in E.
    rewrite assign_invalid by (now rewrite E). reflexivity.
Qed.

(** A negative increment that moves the break takes the page of the old
    break out of mapped memory. *)
Lemma valid_moved_down o n :
  n <= - page_size -> valid (moved o n) (seg_brk o) META_SIZE = false.
Proof.
  intros Hn. apply valid_false. cbn [moved seg_brk].
  pose proof (page_end_lt (seg_brk o + n)). unfold META_SIZE. lia.
Qed.

End Growth.

(** * The lists [malloc] leaves in src/malloc.c *)

Section Invariant.

Import MallocC.

Lemma last_addr_snoc l : forall d z lb, last_addr d (l ++ [(z, lb)]) = z.
Proof.
  induction l as [|[y c] l IH]; intros d z lb; [reflexivity|].
  cbn [app last_addr]. apply IH.
Qed.

Lemma hd_addr_snoc l z lb lb' tl :
  hd_addr (l ++ (z, lb') :: tl) = hd_addr (l ++ [(z, lb)]).
Proof. destruct l as [|[y c] l]; reflexivity. Qed.

(** Appending a fresh header at the end [e] of the layout, linked from the
    last header. *)
Lemma tiles_snoc h z lb e nb l :
  0 < bsize nb -> bnext nb = NULL ->
  forall a,
    tiles h a (l ++ [(z, lb)]) e ->
    tiles (<[e := nb]> (<[z := set_next e lb]> h)) a
          (l ++ [(z, set_next e lb); (e, nb)]) (e + META_SIZE + bsize nb).
Proof.
  intros Hs Hn. induction l as [|[y c] l IH]; intros a Ht.
  - simpl in Ht. destruct Ht as (-> & Hl & Hsz & _ & He).
    cbn [app tiles hd_addr set_next bsize bnext].
    unfold META_SIZE in *.
    rewrite lookup_insert_ne by lia. rewrite lookup_insert_eq.
    repeat split; auto. rewrite He, lookup_insert_eq. repeat split; auto.
    lia.
  - cbn [app] in Ht. cbn [tiles] in Ht. destruct Ht as (-> & Hl & Hsz & Hnx & Ht).
    assert (Hin : In (z, lb) (l ++ [(z, lb)]))
      by (apply in_or_app; right; now left).
    destruct (tiles_bounds _ _ _ _ _ _ Ht Hin) as (H1 & H2 & _ & H4).
    cbn [app tiles]. unfold META_SIZE in *.
    rewrite !lookup_insert_ne by lia.
    rewrite (hd_addr_snoc l z lb). repeat split; auto.
Qed.

Lemma link_last_snoc e l : forall z b,
  link_last e (l ++ [(z, b)]) = l ++ [(z, set_next e b)].
Proof.
  induction l as [|[y c] l IH]; intros z b; [reflexivity|].
  cbn [app link_last]. rewrite IH.
  destruct l as [|yc l']; reflexivity.
Qed.

Lemma link_last_cases e l :
  l = [] \/ exists l0 z b, l = l0 ++ [(z, b)] /\
                           link_last e l = l0 ++ [(z, set_next e b)].
Proof.
  destruct l as [|yc l0] using List.rev_ind; [now left|].
  right. destruct yc as [z b]. exists l0, z, b.
  split; [reflexivity|apply link_last_snoc].
Qed.

Lemma link_last_length e l : length (link_last e l) = length l.
Proof.
  destruct (link_last_cases e l) as [-> | (l0 & z & b & -> & ->)];
    [reflexivity|].
  now rewrite !length_app.
Qed.

Lemma link_last_addresses (P : Z -> Prop) e l :
  List.Forall (fun yb => P (fst yb)) l ->
  List.Forall (fun yb => P (fst yb)) (link_last e l).
Proof.
  destruct (link_last_cases e l) as [-> | (l0 & z & b & -> & ->)];
    [auto|].
  rewrite !List.Forall_app. intros (H0 & H1). split; [exact H0|].
  inversion H1; subst. constructor; auto.
Qed.

(** The state [request_space] leaves holds the old blocks, the last one
    linked to the new block, and the new block behind them. *)
Lemma extended_blocks st l size o :
  heap_blocks st l -> 0 < size ->
  valid o (seg_brk (os st)) META_SIZE = true ->
  seg_base o = seg_base (os st) -> seg_brk (os st) <= seg_brk o ->
  let e := seg_brk (os st) in
  let st' := extended st (last_addr NULL l) size o in
  (last_addr NULL l = NULL \/
   valid o (last_addr NULL l) META_SIZE = true) /\
  (exists a0, seg_base o <= a0 /\
     tiles (blocks st') a0 (link_last e l ++ [(e, fresh_block size)])
           (e + (size + META_SIZE))) /\
  linked_blocks
    (if global_base st =? NULL then set_global_base e st' else st')
    (link_last e l ++ [(e, fresh_block size)]).
Proof.
  intros Hh H0 V Hbase Hbrk e st'. subst st'.
  pose proof Hh as (Hok & Hgb & a0 & Hb & Ht).
  pose proof (heap_linked st l Hh) as (Hp & _ & Hr & _).
  assert (Hr' : List.Forall (fun yb => valid o (fst yb) META_SIZE = true) l).
  { rewrite List.Forall_forall in *. intros yb Hin.
    specialize (Hr _ Hin). apply valid_true in Hr. apply valid_true.
    pose proof (page_end_mono _ _ Hbrk). lia. }
  destruct (link_last_cases e l) as [-> | (l0 & z & lb & -> & Hll)].
  - cbn [last_addr link_last app]. split; [now left|].
    simpl in Hgb. simpl in Ht.
    assert (Htl : tiles (blocks (extended st NULL size o)) e
                    [(e, fresh_block size)] (e + (size + META_SIZE))).
    { unfold extended, linked. cbn [blocks Z.eqb NULL].
      cbn [tiles fresh_block bsize bnext hd_addr]. fold e.
      rewrite lookup_insert_eq. repeat split; auto. lia. }
    split.
    + exists e. split; [destruct Hok as (_ & H & _); unfold e; lia|exact Htl].
    + rewrite Hgb, Z.eqb_refl. unfold linked_blocks.
      cbn [set_global_base extended global_base blocks os hd_addr].
      split; [lia|]. split; [reflexivity|].
      split; [constructor; [exact V|constructor]|].
      exists e, (e + (size + META_SIZE)). exact Htl.
  - rewrite last_addr_snoc, Hll.
    assert (Hin : In (z, lb) (l0 ++ [(z, lb)]))
      by (apply in_or_app; right; now left).
    destruct (tiles_bounds _ _ _ _ _ _ Ht Hin) as (Hz1 & Hz2 & Hz3 & Hz4).
    assert (Hzn : z <> NULL).
    { destruct Hok as (Hq & _). unfold NULL, page_size in *. lia. }
    assert (Hzv : valid o z META_SIZE = true).
    { rewrite List.Forall_forall in Hr'. apply (Hr' _ Hin). }
    split; [now right|].
    assert (Htl : tiles (blocks (extended st z size o)) a0
                    (l0 ++ [(z, set_next e lb); (e, fresh_block size)])
                    (e + (size + META_SIZE))).
    { unfold extended, linked. cbn [blocks].
      replace (z =? NULL) with false by (symmetry; now apply Z.eqb_neq).
      rewrite Hz3. cbn [default]. fold e.
      replace (e + (size + META_SIZE))
        with (e + META_SIZE + bsize (fresh_block size))
        by (cbn [fresh_block bsize]; lia).
      apply tiles_snoc; auto. }
    rewrite <- List.app_assoc. cbn [app].
    split; [exists a0; split; [lia|exact Htl]|].
    assert (Hgn : global_base st <> NULL).
    { apply (linked_base st (l0 ++ [(z, lb)])); [now apply heap_linked|].
      destruct l0; discriminate. }
    replace (global_base st =? NULL) with false
      by (symmetry; now apply Z.eqb_neq).
    unfold linked_blocks.
    split; [cbn [extended os]; lia|].
    split; [cbn [extended global_base];
            rewrite Hgb; symmetry; apply hd_addr_snoc|].
    split; [|exists a0, (e + (size + META_SIZE)); exact Htl].
    cbn [extended os].
    apply List.Forall_app in Hr'. destruct Hr' as (Hr0 & Hr1).
    apply List.Forall_app. split; [exact Hr0|].
    constructor; [exact Hzv|]. constructor; [exact V|constructor].
Qed.

(** What the path through [request_space] does once no block fits.  The
    break moves when the increment is positive and the operating system has
    room; when it refuses, the header is written above the break all the
    same, as far as the page of the break reaches.  A negative increment
    that moves the break takes the old break out of mapped memory. *)
Lemma grow_cases st l size :
  heap_blocks st l -> 0 < size -> size < 2 ^ 31 ->
  let e := seg_brk (os st) in
  let o' := snd (sbrk (sbrk_argument size) (os st)) in
  let st' := extended st (last_addr NULL l) size o' in
  (valid o' e META_SIZE = true /\
   (o' = os st \/
    o' = moved (os st) (size + META_SIZE) /\ size + META_SIZE < 2 ^ 31 /\
    e + size + META_SIZE <= seg_limit (os st)) /\
   grow st (last_addr NULL l) size =
   Ret (e + META_SIZE,
        if global_base st =? NULL then set_global_base e st' else st')) \/
  (valid o' e META_SIZE = false /\
   grow st (last_addr NULL l) size = Undef).
Proof.
  intros Hh H0 H1 e o' st'. pose proof Hh as (Hok & _).
  destruct (valid o' e META_SIZE) eqn:V.
  2:{ right. split; [reflexivity|]. unfold grow.
      now rewrite request_space_faults. }
  left. split; [reflexivity|].
  assert (Hcase : o' = os st \/
                  o' = moved (os st) (size + META_SIZE) /\
                  size + META_SIZE < 2 ^ 31 /\
                  e + size + META_SIZE <= seg_limit (os st)).
  { unfold o' in *.
    destruct (sbrk_cases ptr_bits (os st) (sbrk_argument size) Hok)
      as [(Hr & E) | (_ & E)]; rewrite E in *; cbn [snd] in *; [|now left].
    destruct (Z.le_gt_cases (2 ^ 31) (size + META_SIZE)) as [Hbig | Hsmall].
    - exfalso. rewrite int_increment_neg in * by assumption.
      rewrite valid_moved_down in V; [discriminate|].
      unfold META_SIZE, page_size in *.
      change (2 ^ 31) with 2147483648 in *.
      change (2 ^ 32) with 4294967296 in *. lia.
    - right. rewrite int_increment in * by assumption.
      fold e in Hr. repeat split; auto; lia. }
  split; [exact Hcase|].
  assert (Hbase : seg_base o' = seg_base (os st))
    by (destruct Hcase as [-> | (-> & _)]; reflexivity).
  assert (Hbrk : seg_brk (os st) <= seg_brk o').
  { destruct Hcase as [-> | (-> & _)]; cbn [moved seg_brk];
      unfold META_SIZE; lia. }
  destruct (extended_blocks st l size o' Hh H0 V Hbase Hbrk) as (Hlast & _).
  unfold grow. rewrite request_space_writes by assumption.
  cbn [bind]. fold e o' st'.
  replace (e =? NULL) with false; [reflexivity|].
  symmetry. apply Z.eqb_neq. destruct Hok as (Hp & Hq & _).
  unfold e, NULL, page_size in *. lia.
Qed.

Lemma heap_blocks_mark_used st l x b :
  heap_blocks st l -> In (x, b) l ->
  heap_blocks (mark_used x b st) (update_block x taken l).
Proof.
  intros H Hin. unfold mark_used.
  apply (heap_blocks_update st l x b taken); auto using taken_keeps.
Qed.

(** [grow] with room above the break: the new block sits at the old break,
    behind the old blocks, and the break moves by the size of the request
    plus one header. *)
Lemma grow_granted st l size :
  heap_blocks st l -> 0 < size -> size + META_SIZE < 2 ^ 31 ->
  seg_brk (os st) + size + META_SIZE <= seg_limit (os st) ->
  exists st',
    grow st (last_addr NULL l) size = Ret (seg_brk (os st) + META_SIZE, st') /\
    os st' = moved (os st) (size + META_SIZE) /\
    heap_blocks st' (link_last (seg_brk (os st)) l ++
                     [(seg_brk (os st), fresh_block size)]).
Proof.
  intros Hh H0 Hsmall Hroom. pose proof Hh as (Hok & Hgb & _).
  assert (Hinc : seg_base (os st) <=
                 seg_brk (os st) + (size + META_SIZE) <= seg_limit (os st)).
  { destruct Hok as (_ & Hb & _). unfold META_SIZE in *. lia. }
  assert (Ho : snd (sbrk (sbrk_argument size) (os st)) =
               moved (os st) (size + META_SIZE)).
  { rewrite int_increment by assumption.
    now rewrite (sbrk_grows ptr_bits) by assumption. }
  assert (V : valid (moved (os st) (size + META_SIZE))
                (seg_brk (os st)) META_SIZE = true).
  { apply valid_below; cbn [moved seg_base seg_brk];
      [destruct Hok as (_ & Hb & _); exact Hb|lia]. }
  assert (H1 : size < 2 ^ 31) by (unfold META_SIZE in *; lia).
  destruct (grow_cases st l size Hh H0 H1) as [(_ & _ & Hg) | (Hv & _)];
    rewrite Ho in *; [|congruence].
  destruct (extended_blocks st l size _ Hh H0 V eq_refl) as (_ & Ht & Hl).
  { cbn [moved seg_brk]. unfold META_SIZE. lia. }
  eexists. split; [exact Hg|].
  split; [now destruct (global_base st =? NULL)|].
  destruct Hl as (_ & Hg' & _). destruct Ht as (a0 & Ha0 & Ht).
  unfold heap_blocks.
  split; [destruct (global_base st =? NULL); now apply seg_ok_moved|].
  split; [exact Hg'|].
  exists a0.
  destruct (global_base st =? NULL);
    cbn [set_global_base extended os blocks moved seg_base seg_brk] in *;
    (split; [exact Ha0|]);
    now replace (seg_brk (os st) + size + META_SIZE)
      with (seg_brk (os st) + (size + META_SIZE)) in * by lia.
Qed.

End Invariant.
(** * Properties of src/malloc.c *)

Section MallocCProperties.

Import MallocC.

(** [free] of the payload of a block keeps the list filling the segment. *)
Lemma free_keeps_heap st l x b :
  heap_blocks st l -> In (x, b) l ->
  exists st', free (x + META_SIZE) st = Ret st' /\
              heap_blocks st' (update_block x released l).
Proof.
  intros Hh Hin. eexists.
  split; [eapply free_block; eauto using heap_linked|].
  apply heap_blocks_update; auto using released_keeps.
Qed.

Lemma two_blocks_heap : heap_blocks two_blocks_state two_blocks.
Proof.
  unfold heap_blocks, seg_ok, page_size, ptr_bits.
  cbn [two_blocks_state os global_base seg_base seg_brk seg_limit].
  split; [repeat split; now vm_compute|]. split; [reflexivity|].
  exists 4096. split; [lia|].
  cbn [two_blocks tiles hd_addr bsize bnext]. unfold META_SIZE, NULL.
  repeat split; try lia; try reflexivity.
Defined.

(** C3, as the code has it: on a state whose blocks form a list [l]
    filling the segment, [malloc(size)] with [size > 0] walks [l] in link order, which is
    ascending address order, and hands out the first free block whose span
    covers the required total; the break does not move then.  Only when no
    block of [l] fits does it take the path through [request_space]. *)
Theorem malloc_first_fit (fuel : nat) (st : state)
  (l : list (Z * block_meta)) (size : Z) :
  heap_blocks st l -> 0 < size -> (length l < fuel)%nat ->
  StronglySorted Z.lt (List.map fst l) /\
  match first_fit size l with
  | Some (x, b) =>
      fits size b = true /\
      (exists l1 l2, l = l1 ++ (x, b) :: l2 /\
                     List.Forall (fun yb => fits size (snd yb) = false) l1) /\
      malloc fuel size st = Ret (x + META_SIZE, mark_used x b st) /\
      os (mark_used x b st) = os st
  | None =>
      List.Forall (fun yb => fits size (snd yb) = false) l /\
      malloc fuel size st = grow st (last_addr NULL l) size
  end.
Proof.
  intros Hh Hsz Hfuel. pose proof (heap_linked st l Hh) as Hl. split.
  - destruct Hh as (_ & _ & a0 & _ & Ht). eapply tiles_ascending; eauto.
  - destruct (first_fit size l) as [[x b]|] eqn:Hff.
    + destruct (first_fit_split _ _ _ _ Hff) as (Hfit & Hsplit).
      repeat split; auto. eapply malloc_found; eauto.
    + split; [now apply first_fit_none|]. now apply malloc_not_found.
Qed.

Lemma malloc_first_fit_witness :
  heap_blocks two_blocks_state two_blocks /\ 0 < 8 /\
  (length two_blocks < 3)%nat /\
  malloc 3 8 two_blocks_state =
  Ret (4096 + META_SIZE,
       mark_used 4096
         {| bsize := 8; bnext := 4120; bfree := 1; bmagic := 0x55555555 |}
         two_blocks_state).
Proof.
  assert (H0 : 0 < 8) by lia.
  assert (H1 : (length two_blocks < 3)%nat) by (simpl; lia).
  split; [exact two_blocks_heap|]. split; [exact H0|]. split; [exact H1|].
  pose proof (malloc_first_fit 3 two_blocks_state two_blocks 8
                two_blocks_heap H0 H1) as (_ & H).
  change (first_fit 8 two_blocks) with
    (Some (4096, {| bsize := 8; bnext := 4120; bfree := 1;
                    bmagic := 0x55555555 |})) in H.
  exact (proj1 (proj2 (proj2 H))).
Defined.

(** C10: for [size <= 0], [malloc] returns [NULL] and the state, block list
    and break included, is the one it was called on. *)
Theorem malloc_nonpositive (fuel : nat) (size : Z) (st : state) :
  size <= 0 -> malloc fuel size st = Ret (NULL, st).
Proof.
  intros H. unfold malloc.
  replace (size <=? 0) with true by (symmetry; now apply Z.leb_le).
  reflexivity.
Qed.

Lemma malloc_nonpositive_witness :
  -3 <= 0 /\ malloc 0 (-3) two_blocks_state = Ret (NULL, two_blocks_state).
Proof.
  split; [lia|]. apply malloc_nonpositive. lia.
Defined.

End MallocCProperties.

Section ReleaseProperties.

Import MallocC.

(** C2, as the code has it: [free] of a block of the list rewrites the
    [free] flag (and [magic]) of that one header.  The addresses and sizes of
    all blocks, the links, [global_base] and the break are as before: no
    block is merged with a neighbour. *)
Theorem free_marks_only (st : state) (l : list (Z * block_meta))
  (x : Z) (b : block_meta) :
  heap_blocks st l -> In (x, b) l ->
  exists st',
    free (x + META_SIZE) st = Ret st' /\
    blocks st' = <[x := released b]> (blocks st) /\
    global_base st' = global_base st /\ os st' = os st /\
    heap_blocks st' (update_block x released l) /\
    List.map (fun yb => (fst yb, bsize (snd yb))) (update_block x released l) =
    List.map (fun yb => (fst yb, bsize (snd yb))) l.
Proof.
  intros Hh Hin. eexists.
  split; [eapply free_block; eauto using heap_linked|].
  cbn [blocks global_base os]. repeat split.
  - destruct Hh as (Hok & _). apply Hok.
  - destruct Hh as (Hok & _). apply Hok.
  - destruct Hh as (Hok & _). apply Hok.
  - destruct Hh as (Hok & _). apply Hok.
  - rewrite hd_addr_update. destruct Hh as (_ & Hg & _). exact Hg.
  - destruct Hh as (_ & _ & a0 & Hb & Ht). exists a0. split; [exact Hb|].
    destruct (tiles_bounds _ _ _ _ _ _ Ht Hin) as (_ & _ & Hx & _).
    apply tiles_update; auto using released_keeps.
  - apply update_block_sizes, released_keeps.
Qed.

Lemma free_marks_only_witness :
  heap_blocks two_blocks_state two_blocks /\
  In (4120, {| bsize := 8; bnext := 0; bfree := 0; bmagic := 0x12345678 |})
     two_blocks /\
  exists st',
    free (4120 + META_SIZE) two_blocks_state = Ret st' /\
    blocks st' =
      <[4120 := released {| bsize := 8; bnext := 0; bfree := 0;
                            bmagic := 0x12345678 |}]>
        (blocks two_blocks_state).
Proof.
  assert (Hin : In (4120, {| bsize := 8; bnext := 0; bfree := 0;
                             bmagic := 0x12345678 |}) two_blocks)
    by (right; left; reflexivity).
  split; [exact two_blocks_heap|]. split; [exact Hin|].
  destruct (free_marks_only two_blocks_state two_blocks 4120 _
              two_blocks_heap Hin) as (st' & Hf & Hb & _).
  exists st'. split; assumption.
Defined.

(** After two allocations of 8 bytes from a fresh segment and the release
    of both, the two blocks lie back to back and both are free. *)
Lemma release_leaves_adjacent_free :
  exists p1 s1 p2 s2 s3 s4,
    malloc 1 8 (initial one_page) = Ret (p1, s1) /\
    malloc 2 8 s1 = Ret (p2, s2) /\
    free p1 s2 = Ret s3 /\
    free p2 s3 = Ret s4 /\
    adjacent_free (blocks s4) (get_block_ptr p1) (get_block_ptr p2).
Proof.
  do 6 eexists. split; [evaluate|]. split; [evaluate|].
  split; [evaluate|]. split; [evaluate|].
  unfold adjacent_free. do 2 eexists.
  split; [evaluate|]. split; [evaluate|].
  split; [reflexivity|]. split; discriminate.
Qed.

(** A request of size 0 on a list whose first block is free and spans the
    required total: [malloc] of src/malloc.c returns [NULL] and hands out
    nothing.  In src/MyMalloc.cc a request that a released object could hold
    moves the break. *)
Lemma malloc_zero_skips_free_block :
  first_fit 0 two_blocks =
    Some (4096, {| bsize := 8; bnext := 4120; bfree := 1;
                   bmagic := 0x55555555 |}) /\
  malloc 3 0 two_blocks_state = Ret (NULL, two_blocks_state) /\
  exists q1 p1 q2 p2,
    MyMalloc.malloc MyMalloc.LP64 16 (MyMalloc.start one_page None) =
      Ret (q1, p1) /\
    MyMalloc.malloc MyMalloc.LP64 4 (MyMalloc.free q1 p1) = Ret (q2, p2) /\
    seg_brk (MyMalloc.os p1) < seg_brk (MyMalloc.os p2).
Proof.
  split; [reflexivity|]. split; [evaluate|].
  do 4 eexists. split; [evaluate|]. split; [evaluate|reflexivity].
Qed.

(** C4, as the code has it: once a block of size [bsize b] is released, a
    request of [n] bytes with [0 < n <= bsize b] is served from the list:
    [malloc] returns the payload of the first block that fits, which is not
    [NULL], and the break stays where it was. *)
Theorem reuse_after_free (fuel : nat) (st : state)
  (l : list (Z * block_meta)) (x : Z) (b : block_meta) (n : Z) :
  heap_blocks st l -> In (x, b) l -> 0 < n -> n <= bsize b ->
  (length l < fuel)%nat ->
  exists st1 y c,
    free (x + META_SIZE) st = Ret st1 /\
    first_fit n (update_block x released l) = Some (y, c) /\
    malloc fuel n st1 = Ret (y + META_SIZE, mark_used y c st1) /\
    y + META_SIZE <> NULL /\
    os (mark_used y c st1) = os st.
Proof.
  intros Hh Hin Hn Hle Hfuel.
  destruct (free_keeps_heap st l x b Hh Hin) as (st1 & Hfree & Hh1).
  assert (Hfit : fits n (released b) = true).
  { rewrite fits_code. cbn [released bfree bsize negb andb Z.eqb].
    apply Z.leb_le. exact Hle. }
  destruct (first_fit_some n _ x (released b)
              (update_block_In x b released l Hin) Hfit) as (y & c & Hff).
  exists st1, y, c. split; [exact Hfree|]. split; [exact Hff|].
  split.
  - apply (malloc_found fuel st1 (update_block x released l));
      auto using heap_linked.
    now rewrite update_block_length.
  - split.
    + destruct (first_fit_split _ _ _ _ Hff) as (_ & l1 & l2 & Hl & _).
      assert (Hy : In (y, c) (update_block x released l))
        by (rewrite Hl; apply in_or_app; right; now left).
      destruct Hh1 as (Hok & _ & a0 & Hb & Ht).
      destruct (tiles_bounds _ _ _ _ _ _ Ht Hy) as (Hy1 & _).
      destruct Hok as (Hp & _). unfold NULL, META_SIZE, page_size in *. lia.
    + rewrite (free_block st l x b (heap_linked _ _ Hh) Hin) in Hfree.
      inversion Hfree; subst st1. reflexivity.
Qed.

Lemma reuse_after_free_witness :
  heap_blocks two_blocks_state two_blocks /\
  In (4120, {| bsize := 8; bnext := 0; bfree := 0; bmagic := 0x12345678 |})
     two_blocks /\
  0 < 5 /\ 5 <= 8 /\ (length two_blocks < 3)%nat /\
  exists st1 y c,
    free (4120 + META_SIZE) two_blocks_state = Ret st1 /\
    malloc 3 5 st1 = Ret (y + META_SIZE, mark_used y c st1) /\
    os (mark_used y c st1) = os two_blocks_state.
Proof.
  assert (Hin : In (4120, {| bsize := 8; bnext := 0; bfree := 0;
                             bmagic := 0x12345678 |}) two_blocks)
    by (right; left; reflexivity).
  assert (H0 : 0 < 5) by lia.
  assert (H1 : 5 <= 8) by lia.
  assert (H2 : (length two_blocks < 3)%nat) by (simpl; lia).
  split; [exact two_blocks_heap|]. split; [exact Hin|].
  split; [exact H0|]. split; [exact H1|]. split; [exact H2|].
  destruct (reuse_after_free 3 two_blocks_state two_blocks 4120 _ 5
              two_blocks_heap Hin H0 H1 H2)
    as (st1 & y & c & Hf & _ & Hm & _ & Ho).
  exists st1, y, c. repeat split; assumption.
Defined.

End ReleaseProperties.

(** * Further properties of src/malloc.c *)

Section NoFreeMalloc.

Import MallocC.






End NoFreeMalloc.

Section BlockListResults.

Import MallocC.

Lemma fits_set_next size e b : fits size (set_next e b) = fits size b.
Proof. reflexivity. Qed.

Lemma link_last_no_fit e size l :
  List.Forall (fun yb => fits size (snd yb) = false) l ->
  List.Forall (fun yb => fits size (snd yb) = false) (link_last e l).
Proof.
  destruct (link_last_cases e l) as [-> | (l0 & z & b & -> & ->)];
    [auto|].
  rewrite !List.Forall_app. intros (H0 & H1). split; [exact H0|].
  inversion H1; subst. constructor; auto.
Qed.

(** The blocks before a block of the list lie below it. *)
Lemma tiles_prefix_lt h x b l2 l1 : forall a e,
  tiles h a (l1 ++ (x, b) :: l2) e ->
  List.Forall (fun yb => fst yb <> x) l1.
Proof.
  induction l1 as [|[y c] l1 IH]; intros a e Ht; [constructor|].
  cbn [app tiles] in Ht. destruct Ht as (-> & _ & Hs & _ & Ht).
  constructor; [|eapply IH; eauto].
  assert (Hin : In (x, b) (l1 ++ (x, b) :: l2))
    by (apply in_or_app; right; now left).
  destruct (tiles_bounds _ _ _ _ _ _ Ht Hin) as (H1 & _).
  cbn [fst]. unfold META_SIZE in *. lia.
Qed.

(** The blocks after a block of the list lie above it. *)
Lemma tiles_suffix_gt h x b l2 l1 : forall a e,
  tiles h a (l1 ++ (x, b) :: l2) e ->
  List.Forall (fun yb => fst yb <> x) l2.
Proof.
  induction l1 as [|[y c] l1 IH]; intros a e Ht.
  - cbn [app tiles] in Ht. destruct Ht as (-> & _ & Hs & _ & Ht).
    rewrite List.Forall_forall. intros [y c] Hin.
    destruct (tiles_bounds _ _ _ _ _ _ Ht Hin) as (H1 & _).
    cbn [fst]. unfold META_SIZE in *. lia.
  - cbn [app tiles] in Ht. destruct Ht as (_ & _ & _ & _ & Ht).
    eapply IH; eauto.
Qed.

Lemma update_block_skip x f l :
  List.Forall (fun yb => fst yb <> x) l -> update_block x f l = l.
Proof.
  induction 1 as [|[y c] l Hy _ IH]; [reflexivity|].
  unfold update_block in *. cbn [List.map fst snd]. rewrite IH.
  cbn [fst] in Hy.
  replace (y =? x) with false by (symmetry; now apply Z.eqb_neq).
  reflexivity.
Qed.

Lemma update_block_split h x b f l1 l2 a e :
  tiles h a (l1 ++ (x, b) :: l2) e ->
  update_block x f (l1 ++ (x, b) :: l2) = l1 ++ (x, f b) :: l2.
Proof.
  intros Ht. unfold update_block. rewrite List.map_app. cbn [List.map fst snd].
  rewrite Z.eqb_refl.
  fold (update_block x f l1). fold (update_block x f l2).
  rewrite (update_block_skip x f l1) by (eapply tiles_prefix_lt; eauto).
  rewrite (update_block_skip x f l2) by (eapply tiles_suffix_gt; eauto).
  reflexivity.
Qed.

Lemma first_fit_app size l1 x b l2 :
  List.Forall (fun yb => fits size (snd yb) = false) l1 ->
  fits size b = true ->
  first_fit size (l1 ++ (x, b) :: l2) = Some (x, b).
Proof.
  intros Hall Hfit. unfold first_fit.
  induction Hall as [|[y c] l1 Hy _ IH]; cbn [app List.find snd].
  - now rewrite Hfit.
  - cbn [snd] in Hy. now rewrite Hy.
Qed.

Lemma link_last_In e l y c :
  In (y, c) l ->
  exists c', In (y, c') (link_last e l) /\
             bsize c' = bsize c /\ bfree c' = bfree c.
Proof.
  intros Hin.
  destruct (link_last_cases e l) as [-> | (l0 & z & b & -> & ->)];
    [easy|].
  apply in_app_or in Hin. destruct Hin as [Hin | [Heq | []]].
  - exists c. split; [apply in_or_app; now left|split; reflexivity].
  - inversion Heq; subst. exists (set_next e c).
    split; [apply in_or_app; right; now left|split; reflexivity].
Qed.

(** What a returning path through [request_space] leaves: the new block
    sits at the old break behind the old blocks, all headers in mapped
    memory; the break has moved by the request plus one header, or not at
    all. *)
Lemma grow_returns st l size q st' :
  heap_blocks st l -> 0 < size -> size < 2 ^ 31 ->
  grow st (last_addr NULL l) size = Ret (q, st') ->
  q = seg_brk (os st) + META_SIZE /\
  linked_blocks st' (link_last (seg_brk (os st)) l ++
                     [(seg_brk (os st), fresh_block size)]) /\
  (os st' = os st \/
   os st' = moved (os st) (size + META_SIZE) /\
   size + META_SIZE < 2 ^ 31 /\
   seg_brk (os st) + size + META_SIZE <= seg_limit (os st)).
Proof.
  intros Hh H0 H1 Hg.
  destruct (grow_cases st l size Hh H0 H1) as [(V & Hcase & E) | (_ & E)];
    rewrite E in Hg; [|discriminate].
  inversion Hg; subst q st'; clear Hg. split; [reflexivity|].
  set (o' := snd (sbrk (sbrk_argument size) (os st))) in *.
  assert (Hbase : seg_base o' = seg_base (os st))
    by (destruct Hcase as [-> | (-> & _)]; reflexivity).
  assert (Hbrk : seg_brk (os st) <= seg_brk o').
  { destruct Hcase as [-> | (-> & _)]; cbn [moved seg_brk];
      unfold META_SIZE; lia. }
  destruct (extended_blocks st l size o' Hh H0 V Hbase Hbrk) as (_ & _ & Hl).
  split; [exact Hl|].
  destruct (global_base st =? NULL); exact Hcase.
Qed.

(** What a returning [malloc] leaves: the block handed out is in the list,
    in use and large enough, no block before it fits the request, and the
    blocks that were in use are still there, in use and of the same size. *)
Lemma malloc_result fuel st l size q st' :
  heap_blocks st l -> 0 < size -> size < 2 ^ 31 -> (length l < fuel)%nat ->
  malloc fuel size st = Ret (q, st') ->
  exists x b l1 l2,
    q = x + META_SIZE /\
    linked_blocks st' (l1 ++ (x, b) :: l2) /\
    bfree b = 0 /\ size <= bsize b /\
    List.Forall (fun yb => fits size (snd yb) = false) l1 /\
    (length (l1 ++ (x, b) :: l2) <= S (length l))%nat /\
    (forall y c, In (y, c) l -> bfree c = 0 ->
       exists c', In (y, c') (l1 ++ l2) /\
                  bsize c' = bsize c /\ bfree c' = 0).
Proof.
  intros Hh H0 H1 Hfuel Hm. pose proof (heap_linked st l Hh) as Hl.
  destruct (first_fit size l) as [[x b0]|] eqn:Hff.
  - rewrite (malloc_found fuel st l size x b0) in Hm by assumption.
    inversion Hm; subst q st'; clear Hm.
    destruct (first_fit_split _ _ _ _ Hff) as (Hfit & l1 & l2 & -> & Hall).
    assert (Hin : In (x, b0) (l1 ++ (x, b0) :: l2))
      by (apply in_or_app; right; now left).
    pose proof (linked_blocks_update st _ x b0 taken taken_keeps Hl Hin)
      as Hh'.
    destruct Hh as (_ & _ & a0 & _ & Ht).
    rewrite (update_block_split _ x b0 taken l1 l2 _ _ Ht) in Hh'.
    rewrite fits_code in Hfit. apply andb_true_iff in Hfit.
    destruct Hfit as (Hfree & Hsz). apply Z.leb_le in Hsz.
    exists x, (taken b0), l1, l2.
    split; [reflexivity|]. split; [exact Hh'|].
    split; [reflexivity|]. split; [exact Hsz|]. split; [exact Hall|].
    split; [rewrite !length_app; cbn [length]; lia|].
    intros y c Hy Hc. exists c. split; [|split; [reflexivity|exact Hc]].
    apply in_app_or in Hy. apply in_or_app.
    destruct Hy as [Hy | [Heq | Hy]]; auto.
    inversion Heq; subst.
    apply negb_true_iff, Z.eqb_neq in Hfree. congruence.
  - rewrite (malloc_not_found fuel st l size) in Hm by assumption.
    destruct (grow_returns st l size q st' Hh H0 H1 Hm) as (-> & Hl' & _).
    exists (seg_brk (os st)), (fresh_block size),
      (link_last (seg_brk (os st)) l), [].
    split; [reflexivity|]. split; [exact Hl'|].
    split; [reflexivity|]. split; [cbn [fresh_block bsize]; lia|].
    split; [apply link_last_no_fit; now apply first_fit_none|].
    split; [rewrite length_app, link_last_length; cbn [length]; lia|].
    intros y c Hy Hc. rewrite List.app_nil_r.
    destruct (link_last_In (seg_brk (os st)) l y c Hy) as (c' & H2 & H3 & H4).
    exists c'. repeat split; auto. congruence.
Qed.

End BlockListResults.

Section MallocCFurther.

Import MallocC.

(** X3: on a well-formed list, [find_free_block] returns the first block
    that fits, or [NULL] when none does; in that case it leaves in [last]
    the address of the last block of the list (the caller's value when the
    list is empty), which is where [request_space] links the new block. *)
Theorem find_free_block_result (fuel : nat) (st : state)
  (l : list (Z * block_meta)) (size last : Z) :
  heap_blocks st l -> (length l < fuel)%nat ->
  find_free_block fuel st last size =
    Ret (match first_fit size l with Some (x, _) => x | None => NULL end,
         last_visited size l last) /\
  (first_fit size l = None -> last_visited size l last = last_addr last l).
Proof.
  intros Hh Hfuel. split.
  - apply find_free_block_linked; auto using heap_linked.
  - apply last_visited_none.
Qed.

Lemma find_free_block_result_witness :
  heap_blocks two_blocks_state two_blocks /\ (length two_blocks < 3)%nat /\
  find_free_block 3 two_blocks_state 4096 100 = Ret (NULL, 4120) /\
  find_free_block 3 two_blocks_state 4096 8 = Ret (4096, 4096).
Proof.
  assert (H1 : (length two_blocks < 3)%nat) by (simpl; lia).
  split; [exact two_blocks_heap|]. split; [exact H1|]. split.
  - exact (proj1 (find_free_block_result 3 two_blocks_state two_blocks 100
                    4096 two_blocks_heap H1)).
  - exact (proj1 (find_free_block_result 3 two_blocks_state two_blocks 8
                    4096 two_blocks_heap H1)).
Defined.

(** X4: when no block fits and the break can move, [malloc] asks for
    exactly [size + META_SIZE] bytes, places the new header at the old break
    behind the last block, and returns the address just past that header. *)
Theorem malloc_grows (fuel : nat) (st : state) (l : list (Z * block_meta))
  (size : Z) :
  heap_blocks st l -> 0 < size -> size + META_SIZE < 2 ^ 31 ->
  (length l < fuel)%nat -> first_fit size l = None ->
  seg_brk (os st) + size + META_SIZE <= seg_limit (os st) ->
  exists st',
    malloc fuel size st = Ret (seg_brk (os st) + META_SIZE, st') /\
    os st' = moved (os st) (size + META_SIZE) /\
    heap_blocks st' (link_last (seg_brk (os st)) l ++
                     [(seg_brk (os st), fresh_block size)]).
Proof.
  intros Hh H0 H1 Hfuel Hff Hroom.
  rewrite (malloc_not_found fuel st l size) by auto using heap_linked.
  now apply grow_granted.
Qed.

Lemma malloc_grows_witness :
  heap_blocks two_blocks_state two_blocks /\ 0 < 100 /\
  100 + META_SIZE < 2 ^ 31 /\ (length two_blocks < 3)%nat /\
  first_fit 100 two_blocks = None /\
  seg_brk (os two_blocks_state) + 100 + META_SIZE
    <= seg_limit (os two_blocks_state) /\
  exists st',
    malloc 3 100 two_blocks_state = Ret (4144 + META_SIZE, st') /\
    seg_brk (os st') = 4260.
Proof.
  assert (H0 : 0 < 100) by lia.
  assert (H1 : 100 + META_SIZE < 2 ^ 31) by now vm_compute.
  assert (H2 : (length two_blocks < 3)%nat) by (simpl; lia).
  assert (H3 : first_fit 100 two_blocks = None) by reflexivity.
  assert (H4 : seg_brk (os two_blocks_state) + 100 + META_SIZE
               <= seg_limit (os two_blocks_state)) by now vm_compute.
  do 6 (split; [assumption || exact two_blocks_heap|]).
  destruct (malloc_grows 3 two_blocks_state two_blocks 100
              two_blocks_heap H0 H1 H2 H3 H4) as (st' & Hm & Ho & _).
  exists st'. split; [exact Hm|]. now rewrite Ho.
Defined.

(** X5: a pointer [malloc] returns for a positive size is never [NULL]: it
    lies just past a header in mapped memory that is linked into the list,
    marked in use, and whose size covers the request. *)
Theorem malloc_returns_usable_block (fuel : nat) (st : state)
  (l : list (Z * block_meta)) (size q : Z) (st' : state) :
  heap_blocks st l -> 0 < size -> size < 2 ^ 31 -> (length l < fuel)%nat ->
  malloc fuel size st = Ret (q, st') ->
  q <> NULL /\
  exists b l',
    In (get_block_ptr q, b) l' /\ linked_blocks st' l' /\
    load st' (get_block_ptr q) = Ret b /\ bfree b = 0 /\ size <= bsize b.
Proof.
  intros Hh H0 H1 Hfuel Hm.
  destruct (malloc_result fuel st l size q st' Hh H0 H1 Hfuel Hm)
    as (x & b & l1 & l2 & -> & Hh' & Hfree & Hsz & _).
  assert (Hin : In (x, b) (l1 ++ (x, b) :: l2))
    by (apply in_or_app; right; now left).
  destruct (load_block st' _ x b Hh' Hin) as (Hld & Hx).
  unfold get_block_ptr. replace (x + META_SIZE - META_SIZE) with x by lia.
  split.
  - unfold load in Hld.
    destruct (valid (os st') x META_SIZE) eqn:V; [|discriminate].
    apply valid_true in V. destruct Hh' as (Hp & _).
    unfold NULL, META_SIZE, page_size in *. lia.
  - exists b, (l1 ++ (x, b) :: l2). auto.
Qed.


(** X7: allocate, release, allocate again with the same size: the second
    allocation returns the pointer of the first, and the break does not
    move. *)
Theorem malloc_free_malloc (fuel : nat) (st : state)
  (l : list (Z * block_meta)) (size q : Z) (st1 : state) :
  heap_blocks st l -> 0 < size -> size < 2 ^ 31 ->
  (S (length l) < fuel)%nat ->
  malloc fuel size st = Ret (q, st1) -> q <> NULL ->
  exists st2 st3,
    free q st1 = Ret st2 /\ malloc fuel size st2 = Ret (q, st3) /\
    os st3 = os st1.
Proof.
  intros Hh H0 H1 Hfuel Hm Hq.
  assert (Hfuel0 : (length l < fuel)%nat) by lia.
  destruct (malloc_result fuel st l size q st1 Hh H0 H1 Hfuel0 Hm)
    as (x & b & l1 & l2 & -> & Hh1 & Hfree & Hsz & Hall & Hlen & _).
  assert (Hin : In (x, b) (l1 ++ (x, b) :: l2))
    by (apply in_or_app; right; now left).
  pose proof (free_block st1 _ x b Hh1 Hin) as Hf.
  pose proof (linked_blocks_update st1 _ x b released released_keeps Hh1 Hin)
    as Hh2.
  destruct Hh1 as (_ & _ & _ & a0 & e & Ht).
  rewrite (update_block_split _ x b released l1 l2 _ _ Ht) in Hh2.
  assert (Hfit : fits size (released b) = true).
  { rewrite fits_code. cbn [released set_magic set_free bfree bsize negb andb].
    now apply Z.leb_le. }
  pose proof (first_fit_app size l1 x (released b) l2 Hall Hfit) as Hff.
  eexists. eexists. split; [exact Hf|]. split.
  - eapply malloc_found; [exact Hh2|exact H0| |exact Hff].
    rewrite !length_app in *. cbn [length] in *. lia.
  - reflexivity.
Qed.

(** X8: releasing a block twice leaves the state the first release left:
    a second [free] of the same pointer changes nothing. *)
Theorem free_twice (st : state) (l : list (Z * block_meta)) (x : Z)
  (b : block_meta) (st1 : state) :
  heap_blocks st l -> In (x, b) l ->
  free (x + META_SIZE) st = Ret st1 ->
  free (x + META_SIZE) st1 = Ret st1.
Proof.
  intros Hh Hin Hf.
  rewrite (free_block st l x b (heap_linked _ _ Hh) Hin) in Hf.
  inversion Hf; subst st1; clear Hf.
  pose proof (heap_blocks_update st l x b released released_keeps Hh Hin)
    as Hh1.
  rewrite (free_block _ _ x (released b) (heap_linked _ _ Hh1)
             (update_block_In x b released l Hin)).
  cbn [global_base blocks os]. now rewrite insert_insert_eq.
Qed.


(** X10: [malloc] keeps the blocks a list that fills the segment whenever
    a block of the list fits or the operating system has room for the
    request. *)
Theorem malloc_keeps_heap (fuel : nat) (st : state)
  (l : list (Z * block_meta)) (size q : Z) (st' : state) :
  heap_blocks st l -> size + META_SIZE < 2 ^ 31 -> (length l < fuel)%nat ->
  first_fit size l <> None \/
  seg_brk (os st) + size + META_SIZE <= seg_limit (os st) ->
  malloc fuel size st = Ret (q, st') ->
  exists l', heap_blocks st' l'.
Proof.
  intros Hh H1 Hfuel Hcase Hm.
  destruct (Z.le_gt_cases size 0) as [Hle | Hpos].
  - unfold malloc in Hm.
    replace (size <=? 0) with true in Hm by (symmetry; now apply Z.leb_le).
    inversion Hm; subst. eauto.
  - destruct (first_fit size l) as [[x b]|] eqn:Hff.
    + rewrite (malloc_found fuel st l size x b) in Hm
        by auto using heap_linked.
      inversion Hm; subst. exists (update_block x taken l).
      apply heap_blocks_mark_used; auto.
      destruct (first_fit_split _ _ _ _ Hff) as (_ & l1 & l2 & -> & _).
      apply in_or_app; right; now left.
    + destruct Hcase as [Hc | Hroom]; [congruence|].
      rewrite (malloc_not_found fuel st l size) in Hm
        by auto using heap_linked.
      destruct (grow_granted st l size Hh Hpos H1 Hroom) as (st1 & Hg & _ & Hl).
      rewrite Hg in Hm. inversion Hm; subst. eauto.
Qed.


End MallocCFurther.

Section MallocCFurtherWitnesses.

Import MallocC.


Lemma malloc_returns_usable_block_witness :
  heap_blocks two_blocks_state two_blocks /\ 0 < 5000 /\ 5000 < 2 ^ 31 /\
  (length two_blocks < 3)%nat /\
  exists q st' b,
    malloc 3 5000 two_blocks_state = Ret (q, st') /\ q <> NULL /\
    load st' (get_block_ptr q) = Ret b /\ bfree b = 0 /\ 5000 <= bsize b.
Proof.
  assert (H0 : 0 < 5000) by lia.
  assert (H1 : 5000 < 2 ^ 31) by now vm_compute.
  assert (H2 : (length two_blocks < 3)%nat) by (simpl; lia).
  do 4 (split; [assumption || exact two_blocks_heap|]).
  destruct (malloc 3 5000 two_blocks_state) as [[q st']| |] eqn:E;
    [|vm_compute in E; discriminate|vm_compute in E; discriminate].
  destruct (malloc_returns_usable_block 3 two_blocks_state two_blocks 5000 q
              st' two_blocks_heap H0 H1 H2 E)
    as (Hq & b & l' & _ & _ & Hl & Hf & Hs).
  exists q, st', b. auto.
Defined.


Lemma malloc_free_malloc_witness :
  heap_blocks two_blocks_state two_blocks /\ 0 < 8 /\ 8 < 2 ^ 31 /\
  (S (length two_blocks) < 4)%nat /\ 4112 <> NULL /\
  exists st1 st2 st3,
    malloc 4 8 two_blocks_state = Ret (4112, st1) /\
    free 4112 st1 = Ret st2 /\ malloc 4 8 st2 = Ret (4112, st3) /\
    os st3 = os st1.
Proof.
  assert (H0 : 0 < 8) by lia.
  assert (H1 : 8 < 2 ^ 31) by now vm_compute.
  assert (H2 : (S (length two_blocks) < 4)%nat) by (simpl; lia).
  assert (H3 : 4112 <> NULL) by discriminate.
  assert (Hm : malloc 4 8 two_blocks_state =
               Ret (4112, mark_used 4096
                            {| bsize := 8; bnext := 4120; bfree := 1;
                               bmagic := 0x55555555 |} two_blocks_state))
    by evaluate.
  do 5 (split; [assumption || exact two_blocks_heap|]).
  destruct (malloc_free_malloc 4 two_blocks_state two_blocks 8 4112 _
              two_blocks_heap H0 H1 H2 Hm H3) as (st2 & st3 & Hf & Hm2 & Ho).
  eexists. exists st2, st3. split; [exact Hm|]. auto.
Defined.

Lemma free_twice_witness :
  heap_blocks two_blocks_state two_blocks /\
  In (4120, {| bsize := 8; bnext := 0; bfree := 0; bmagic := 0x12345678 |})
     two_blocks /\
  exists st1,
    free (4120 + META_SIZE) two_blocks_state = Ret st1 /\
    free (4120 + META_SIZE) st1 = Ret st1.
Proof.
  assert (Hin : In (4120, {| bsize := 8; bnext := 0; bfree := 0;
                             bmagic := 0x12345678 |}) two_blocks)
    by (right; left; reflexivity).
  split; [exact two_blocks_heap|]. split; [exact Hin|].
  destruct (free (4120 + META_SIZE) two_blocks_state) as [st1| |] eqn:E;
    [|vm_compute in E; discriminate|vm_compute in E; discriminate].
  exists st1. split; [reflexivity|].
  exact (free_twice two_blocks_state two_blocks 4120 _ st1
           two_blocks_heap Hin E).
Defined.


Lemma malloc_keeps_heap_witness :
  heap_blocks two_blocks_state two_blocks /\ 100 + META_SIZE < 2 ^ 31 /\
  (length two_blocks < 3)%nat /\
  seg_brk (os two_blocks_state) + 100 + META_SIZE
    <= seg_limit (os two_blocks_state) /\
  exists q st' l',
    malloc 3 100 two_blocks_state = Ret (q, st') /\ heap_blocks st' l'.
Proof.
  assert (H1 : 100 + META_SIZE < 2 ^ 31) by now vm_compute.
  assert (H2 : (length two_blocks < 3)%nat) by (simpl; lia).
  assert (H4 : seg_brk (os two_blocks_state) + 100 + META_SIZE
               <= seg_limit (os two_blocks_state)) by now vm_compute.
  split; [exact two_blocks_heap|]. split; [exact H1|]. split; [exact H2|].
  split; [exact H4|].
  destruct (malloc 3 100 two_blocks_state) as [[q st']| |] eqn:E;
    [|vm_compute in E; discriminate|vm_compute in E; discriminate].
  destruct (malloc_keeps_heap 3 two_blocks_state two_blocks 100 q st'
              two_blocks_heap H1 H2 (or_intror H4) E) as (l' & Hl).
  exists q, st', l'. split; [reflexivity|exact Hl].
Defined.


End MallocCFurtherWitnesses.
(** * Bytes in memory *)

Section Bytes.

Import MyMalloc.

Lemma store_le_outside n : forall a v (m : gmap Z Z) a',
  a' < a \/ a + Z.of_nat n <= a' ->
  store_le n a v m !!! a' = m !!! a'.
Proof.
  induction n as [|n IH]; intros a v m a' H; [reflexivity|].
  cbn [store_le]. rewrite IH by lia.
  apply lookup_total_insert_ne. lia.
Qed.

Lemma load_le_agree n : forall a (m m' : gmap Z Z),
  (forall i, a <= i < a + Z.of_nat n -> m' !!! i = m !!! i) ->
  load_le n a m' = load_le n a m.
Proof.
  induction n as [|n IH]; intros a m m' H; [reflexivity|].
  cbn [load_le]. rewrite H by lia. f_equal. f_equal.
  apply IH. intros i Hi. apply H. lia.
Qed.

Lemma load_store_le n : forall a v (m : gmap Z Z),
  load_le n a (store_le n a v m) = v mod 256 ^ Z.of_nat n.
Proof.
  induction n as [|n IH]; intros a v m.
  - cbn [load_le]. now rewrite Z.pow_0_r, Z.mod_1_r.
  - cbn [load_le store_le]. rewrite store_le_outside by lia.
    rewrite lookup_total_insert_eq, IH.
    rewrite Z.mod_mod by lia.
    replace (Z.of_nat (S n)) with (1 + Z.of_nat n) by lia.
    rewrite Z.pow_add_r by lia. change (256 ^ 1) with 256.
    rewrite Z.rem_mul_r by lia. reflexivity.
Qed.

Lemma copy_bytes_outside n : forall dst src (m : gmap Z Z) a,
  a < dst \/ dst + Z.of_nat n <= a ->
  copy_bytes n dst src m !!! a = m !!! a.
Proof.
  induction n as [|n IH]; intros dst src m a H; [reflexivity|].
  cbn [copy_bytes]. rewrite IH by lia.
  apply lookup_total_insert_ne. lia.
Qed.


Lemma fill_bytes_outside n : forall dst c (m : gmap Z Z) a,
  a < dst \/ dst + Z.of_nat n <= a ->
  fill_bytes n dst c m !!! a = m !!! a.
Proof.
  induction n as [|n IH]; intros dst c m a H; [reflexivity|].
  cbn [fill_bytes]. rewrite IH by lia.
  apply lookup_total_insert_ne. lia.
Qed.

Lemma fill_bytes_inside n : forall dst c (m : gmap Z Z) i,
  0 <= i < Z.of_nat n ->
  fill_bytes n dst c m !!! (dst + i) = c mod 256.
Proof.
  induction n as [|n IH]; intros dst c m i Hi; [lia|].
  cbn [fill_bytes]. destruct (Z.eq_dec i 0) as [->|Hne].
  - rewrite Z.add_0_r, fill_bytes_outside by lia.
    apply lookup_total_insert_eq.
  - replace (dst + i) with (dst + 1 + (i - 1)) by lia.
    apply IH. lia.
Qed.

End Bytes.

(** * Sizes and the object header in src/MyMalloc.cc *)

Section Objects.

Import MyMalloc.

Variable abi : Abi.

Local Abbreviation w := (size_bits abi).
Local Abbreviation hdr := (sizeof_ObjectHeader abi).
Local Abbreviation off := (offsetof_objectSize abi).
Local Abbreviation szt := (sizeof_size_t abi).

Lemma abi_layout :
  32 <= w /\ 2 ^ w = 256 ^ Z.of_nat szt /\ hdr = off + Z.of_nat szt /\
  4 <= off /\ hdr mod 8 = 0 /\ 8 <= hdr <= 16 /\ 2 ^ w = 2 * 2 ^ (w - 1) /\
  2 ^ 32 <= 2 ^ w.
Proof. destruct abi; repeat split; now vm_compute. Qed.

(** The address space is a whole number of pages and of 8-byte words. *)
Lemma abi_space : page_end (2 ^ w) = 2 ^ w /\ exists k, 2 ^ w = 8 * k.
Proof.
  destruct abi; (split; [now vm_compute|]).
  - now exists 536870912.
  - now exists 2305843009213693952.
Qed.

Lemma wrap_range x : 0 <= wrap w x < 2 ^ w.
Proof.
  unfold wrap. apply Z.mod_pos_bound.
  destruct abi_layout as (H & _). apply Z.pow_pos_nonneg; lia.
Qed.

Lemma wrap_small x : 0 <= x < 2 ^ w -> wrap w x = x.
Proof. intros H. unfold wrap. now apply Z.mod_small. Qed.

Lemma to_signed_low x : 0 <= x < 2 ^ (w - 1) -> to_signed w x = x.
Proof.
  intros H. unfold to_signed. destruct abi_layout as (_ & _ & _ & _ & _ & _ & Hw & _).
  rewrite Z.mod_small by lia. lia.
Qed.

Lemma to_signed_high x :
  2 ^ (w - 1) <= x < 2 ^ w -> to_signed w x = x - 2 ^ w.
Proof.
  intros H. unfold to_signed. destruct abi_layout as (_ & _ & _ & _ & _ & _ & Hw & _).
  replace (x + 2 ^ (w - 1)) with (x - 2 ^ (w - 1) + 1 * 2 ^ w) by lia.
  rewrite Z.mod_add by lia. rewrite Z.mod_small by lia. lia.
Qed.

(** A [size_t] read as an [intptr_t] is the same number modulo [2 ^ w]. *)
Lemma to_signed_cases x :
  0 <= x < 2 ^ w ->
  (x < 2 ^ (w - 1) /\ to_signed w x = x) \/
  (2 ^ (w - 1) <= x /\ to_signed w x = x - 2 ^ w).
Proof.
  intros H. destruct (Z.lt_ge_cases x (2 ^ (w - 1))).
  - left. split; [assumption|]. apply to_signed_low. lia.
  - right. split; [assumption|]. apply to_signed_high. lia.
Qed.

(** [y & ~7] clears the three low bits. *)
Lemma land_not7 y : 0 <= y < 2 ^ w -> Z.land y (wrap w (Z.lnot 7)) = 8 * (y / 8).
Proof.
  intros Hy. destruct abi_layout as (Hw & _).
  unfold wrap. rewrite <- (Z.land_ones (Z.lnot 7)) by lia.
  rewrite (Z.land_comm (Z.lnot 7)), Z.land_assoc.
  rewrite (Z.land_ones y) by lia. rewrite Z.mod_small by exact Hy.
  rewrite <- Z.ldiff_land. change 7 with (Z.ones 3).
  rewrite Z.ldiff_ones_r by lia.
  rewrite Z.shiftl_mul_pow2, Z.shiftr_div_pow2 by lia.
  change (2 ^ 3) with 8. lia.
Qed.

Lemma totalSize_eq size :
  totalSize abi size = 8 * (wrap w (size + hdr + 7) / 8).
Proof. unfold totalSize. apply land_not7, wrap_range. Qed.

Lemma totalSize_range size : 0 <= totalSize abi size < 2 ^ w.
Proof.
  rewrite totalSize_eq. pose proof (wrap_range (size + hdr + 7)) as H.
  pose proof (Z.mul_div_le (wrap w (size + hdr + 7)) 8).
  pose proof (Z.div_pos (wrap w (size + hdr + 7)) 8). lia.
Qed.

(** Without wrap-around the total is the request plus the header, rounded
    up to a multiple of 8. *)
Lemma totalSize_exact size :
  0 <= size -> size + hdr + 7 < 2 ^ w ->
  totalSize abi size = 8 * ((size + hdr + 7) / 8) /\
  size + hdr <= totalSize abi size <= size + hdr + 7.
Proof.
  intros H0 H1. destruct abi_layout as (_ & _ & _ & _ & _ & Hh & _).
  rewrite totalSize_eq, wrap_small by lia.
  split; [reflexivity|].
  pose proof (Z.div_mod (size + hdr + 7) 8).
  pose proof (Z.mod_pos_bound (size + hdr + 7) 8). lia.
Qed.

(** libc's [sbrk] either moves the break and returns the old one, or
    returns [(void* )-1]. *)
Lemma libc_sbrk_inv n o r o' :
  sbrk w n o = (r, o') ->
  (r = seg_brk o /\ o' = moved o n /\
   seg_base o <= seg_brk o + n <= seg_limit o) \/
  (r = sbrk_failed w /\ o' = o).
Proof.
  unfold sbrk, moved.
  destruct (seg_base o <=? seg_brk o + n) eqn:E1;
    destruct (seg_brk o + n <=? seg_limit o) eqn:E2; cbn [andb];
    intros H; inversion H; subst; auto.
  left. apply Z.leb_le in E1. apply Z.leb_le in E2. auto.
Qed.

Lemma libc_sbrk_moves n o :
  seg_base o <= seg_brk o + n <= seg_limit o ->
  sbrk w n o = (seg_brk o, moved o n).
Proof.
  intros (H1 & H2). unfold sbrk.
  replace (seg_base o <=? seg_brk o + n) with true by (symmetry; now apply Z.leb_le).
  replace (seg_brk o + n <=? seg_limit o) with true by (symmetry; now apply Z.leb_le).
  reflexivity.
Qed.

Lemma initialized_os p : os (initialized p) = os p.
Proof. unfold initialized. now destruct (_ =? 0). Qed.

Lemma initialized_mem p : mem (initialized p) = mem p.
Proof. unfold initialized. now destruct (_ =? 0). Qed.

Lemma initialized_env p : MALLOCVERBOSE (initialized p) = MALLOCVERBOSE p.
Proof. unfold initialized. now destruct (_ =? 0). Qed.

(** Mapped memory lies inside the address space. *)
Lemma page_end_space o : seg_ok w o -> page_end (seg_brk o) <= 2 ^ w.
Proof.
  intros (_ & _ & Hb & Hl). destruct abi_space as (E & _).
  rewrite <- E. apply page_end_mono. lia.
Qed.

Lemma with_header_below o total (m : gmap Z Z) a :
  a < o -> with_header abi o total m !!! a = m !!! a.
Proof.
  intros H. unfold with_header, offsetof_flags.
  destruct abi_layout as (_ & _ & _ & Hoff & _).
  rewrite !store_le_outside by lia. reflexivity.
Qed.

(** [allocateObject] returns when [sbrk] has moved the break, by the total
    read as an [intptr_t], and the page of the new break holds the header
    written at the old break. *)
Lemma allocateObject_returns size p :
  seg_ok w (os p) ->
  seg_base (os p) <= seg_brk (os p) + to_signed w (totalSize abi size)
    <= seg_limit (os p) ->
  seg_brk (os p) + hdr <=
    page_end (seg_brk (os p) + to_signed w (totalSize abi size)) ->
  allocateObject abi size p =
  Ret (seg_brk (os p) + hdr, allocated abi size p).
Proof.
  intros Hok Hmove Hpage.
  destruct abi_layout as (Hw & H256 & Hhdr & Hoff & _ & Hh & Hhalf & _).
  unfold allocateObject. fold (initialized p). unfold getMemoryFromOS.
  cbn [set_allocator os TheAllocator mem]. rewrite initialized_os.
  rewrite libc_sbrk_moves by exact Hmove.
  unfold store_size_t, store_int. cbn [set_os set_mem os mem TheAllocator].
  set (o' := moved (os p) (to_signed w (totalSize abi size))).
  assert (V1 : valid o' (seg_brk (os p) + off) (Z.of_nat szt) = true).
  { apply valid_true. cbn [o' moved seg_base seg_brk].
    destruct Hok as (_ & Hb & _). lia. }
  assert (V2 : valid o' (seg_brk (os p) + offsetof_flags) 4 = true).
  { apply valid_true. cbn [o' moved seg_base seg_brk]. unfold offsetof_flags.
    destruct Hok as (_ & Hb & _). lia. }
  rewrite V1. cbn [bind set_os set_mem os mem TheAllocator].
  rewrite V2. cbn [bind]. unfold allocated, set_mem, set_os, set_allocator.
  cbn [TheAllocator os mem MALLOCVERBOSE atexit_handlers].
  rewrite initialized_mem, initialized_env. reflexivity.
Qed.

(** What a returning [allocateObject] has done. *)
Lemma allocateObject_inv size p q p' :
  seg_ok w (os p) -> allocateObject abi size p = Ret (q, p') ->
  seg_base (os p) <= seg_brk (os p) + to_signed w (totalSize abi size)
    <= seg_limit (os p) /\
  seg_brk (os p) + hdr <=
    page_end (seg_brk (os p) + to_signed w (totalSize abi size)) /\
  q = seg_brk (os p) + hdr /\
  p' = allocated abi size p.
Proof.
  intros Hok Ha.
  destruct abi_layout as (Hw & H256 & Hhdr & Hoff & _ & Hh & Hhalf & _).
  assert (Hret : seg_base (os p) <=
                   seg_brk (os p) + to_signed w (totalSize abi size)
                   <= seg_limit (os p) /\
                 seg_brk (os p) + hdr <=
                   page_end (seg_brk (os p) +
                             to_signed w (totalSize abi size))).
  { unfold allocateObject in Ha. fold (initialized p) in Ha.
    unfold getMemoryFromOS in Ha.
    cbn [set_allocator os TheAllocator mem] in Ha.
    rewrite initialized_os in Ha.
    destruct (sbrk w (to_signed w (totalSize abi size)) (os p))
      as [r o'] eqn:Es.
    unfold store_size_t in Ha. cbn [set_os set_mem os mem TheAllocator] in Ha.
    destruct (valid o' (r + off) (Z.of_nat szt)) eqn:V1;
      cbn [bind] in Ha; [|discriminate].
    apply valid_true in V1.
    destruct (libc_sbrk_inv _ _ _ _ Es) as [(-> & -> & Hb) | (-> & ->)].
    - cbn [moved seg_base seg_brk] in V1. split; [exact Hb|lia].
    - exfalso. pose proof (page_end_space _ Hok) as Hsp.
      unfold sbrk_failed in V1. lia. }
  destruct Hret as (Hmove & Hpage).
  rewrite (allocateObject_returns size p Hok Hmove Hpage) in Ha.
  inversion Ha; subst. auto.
Qed.

Lemma allocated_os size p :
  os (allocated abi size p) =
  moved (os p) (to_signed w (totalSize abi size)).
Proof. reflexivity. Qed.

Lemma allocated_mem size p :
  mem (allocated abi size p) =
  with_header abi (seg_brk (os p)) (totalSize abi size) (mem p).
Proof. reflexivity. Qed.

(** The segment is well formed after a returning [allocateObject]. *)
Lemma allocateObject_ok size p q p' :
  seg_ok w (os p) -> allocateObject abi size p = Ret (q, p') ->
  seg_ok w (os p').
Proof.
  intros Hok Ha.
  destruct (allocateObject_inv _ _ _ _ Hok Ha) as (Hmove & _ & _ & ->).
  rewrite allocated_os. now apply seg_ok_moved.
Qed.

(** The size read back from the header [allocateObject] has written. *)
Lemma objectSize_fresh size p q p' :
  seg_ok w (os p) -> allocateObject abi size p = Ret (q, p') ->
  objectSize abi q p' = Ret (wrap w (totalSize abi size - hdr)).
Proof.
  intros Hok Ha.
  destruct (allocateObject_inv _ _ _ _ Hok Ha) as (Hmove & Hpage & -> & ->).
  destruct abi_layout as (Hw & H256 & Hhdr & Hoff & _ & Hh & Hhalf & _).
  unfold objectSize, load_size_t.
  replace (seg_brk (os p) + hdr - hdr) with (seg_brk (os p)) by lia.
  rewrite allocated_os, allocated_mem.
  assert (V : valid (moved (os p) (to_signed w (totalSize abi size)))
                (seg_brk (os p) + off) (Z.of_nat szt) = true).
  { apply valid_true. cbn [moved seg_base seg_brk].
    destruct Hok as (_ & Hb & _). lia. }
  rewrite V. unfold with_header, offsetof_flags.
  rewrite (load_le_agree szt _ (store_le szt (seg_brk (os p) + off)
                                  (wrap w (totalSize abi size)) (mem p))).
  2:{ intros i Hi. apply store_le_outside. lia. }
  rewrite load_store_le, <- H256. cbn [bind].
  pose proof (totalSize_range size) as HT.
  rewrite (wrap_small (totalSize abi size)) by lia.
  rewrite Z.mod_small by lia. reflexivity.
Qed.

(** The size of an object does not depend on memory at or above its
    payload, nor on the break as long as the header stays mapped. *)
Lemma objectSize_frame p p' ptr m :
  live abi p ptr m ->
  seg_base (os p') = seg_base (os p) -> ptr <= page_end (seg_brk (os p')) ->
  (forall a, a < ptr -> mem p' !!! a = mem p !!! a) ->
  objectSize abi ptr p' = Ret m.
Proof.
  intros (Hb & Hm & He & Hsz) Hbase Hbrk Hmem.
  destruct abi_layout as (_ & _ & Hhdr & Hoff & _).
  unfold objectSize, load_size_t in *.
  destruct (valid (os p) (ptr - hdr + off) (Z.of_nat szt)) eqn:V;
    [|discriminate].
  apply valid_true in V.
  assert (V' : valid (os p') (ptr - hdr + off) (Z.of_nat szt) = true)
    by (apply valid_true; lia).
  rewrite V'.
  rewrite (load_le_agree _ _ (mem p)); [exact Hsz|].
  intros i Hi. apply Hmem. lia.
Qed.

(** An allocation leaves the size of every live object readable and as it
    was. *)
Lemma objectSize_kept size p q p' ptr m :
  seg_ok w (os p) -> live abi p ptr m ->
  allocateObject abi size p = Ret (q, p') ->
  objectSize abi ptr p' = Ret m.
Proof.
  intros Hok Hlive Ha. pose proof Hlive as (Hb & Hm & He & Hsz).
  destruct (allocateObject_inv _ _ _ _ Hok Ha) as (Hmove & Hpage & _ & ->).
  destruct abi_layout as (_ & _ & _ & _ & _ & Hh & _).
  apply (objectSize_frame p _ ptr m Hlive).
  - reflexivity.
  - rewrite allocated_os. cbn [moved seg_brk]. lia.
  - intros a Ha'. rewrite allocated_mem. apply with_header_below. lia.
Qed.

End Objects.

(** * Properties of src/MyMalloc.cc *)

Section MyMallocProperties.

Import MyMalloc.

Variable abi : Abi.

Local Abbreviation w := (size_bits abi).
Local Abbreviation hdr := (sizeof_ObjectHeader abi).
Local Abbreviation off := (offsetof_objectSize abi).
Local Abbreviation szt := (sizeof_size_t abi).

(** X13: size round trip without wrap-around: the size read back for the
    object [malloc(s)] returns is the rounded total less the header, at least
    [s]. *)
Lemma size_round_trip s p q p' :
  seg_ok w (os p) -> 0 <= s -> s + hdr + 7 < 2 ^ w ->
  malloc abi s p = Ret (q, p') ->
  objectSize abi q p' = Ret (8 * ((s + hdr + 7) / 8) - hdr) /\
  s <= 8 * ((s + hdr + 7) / 8) - hdr.
Proof.
  intros Hok H0 H1 Hm. unfold malloc in Hm.
  destruct (totalSize_exact abi s H0 H1) as (Heq & Hle & Hge).
  rewrite <- Heq. split; [|lia].
  rewrite (objectSize_fresh abi s (increaseMallocCalls p) q p' Hok Hm).
  destruct (abi_layout abi) as (_ & _ & _ & _ & _ & Hh & _).
  f_equal. apply wrap_small. lia.
Qed.

(** When the break cannot move, [allocateObject] writes the header through
    the value [sbrk] returned. *)
Lemma allocateObject_growth_failure size p :
  seg_ok w (os p) ->
  ~ seg_base (os p) <= seg_brk (os p) + to_signed w (totalSize abi size)
      <= seg_limit (os p) ->
  allocateObject abi size p = Undef.
Proof.
  intros Hok Hfull.
  destruct (allocateObject abi size p) as [[q p']| |] eqn:E; [|reflexivity|].
  - destruct (allocateObject_inv abi _ _ _ _ Hok E) as (Hmove & _).
    now elim Hfull.
  - exfalso. unfold allocateObject in E.
    destruct (getMemoryFromOS abi _ _) as [r p1].
    unfold store_size_t, store_int in E.
    destruct (valid (os p1) _ _); cbn [bind] in E; [|discriminate].
    cbn [set_mem os] in E.
    destruct (valid (os p1) _ 4); discriminate.
Qed.

(** Every returning [allocateObject] has placed its object at the break
    and moved the break by the total read as an [intptr_t]: the allocator
    keeps no list of released objects to serve a request from. *)
Lemma allocateObject_always_grows size p q p' :
  seg_ok w (os p) -> allocateObject abi size p = Ret (q, p') ->
  q = seg_brk (os p) + hdr /\
  seg_brk (os p') = seg_brk (os p) + to_signed w (totalSize abi size) /\
  (0 < totalSize abi size < 2 ^ (w - 1) -> seg_brk (os p) < seg_brk (os p')).
Proof.
  intros Hok Ha.
  destruct (allocateObject_inv abi _ _ _ _ Hok Ha) as (_ & _ & -> & ->).
  split; [reflexivity|]. split; [reflexivity|].
  intros HT. rewrite allocated_os. cbn [moved seg_brk].
  rewrite to_signed_low by lia. lia.
Qed.


End MyMallocProperties.

Section MyMallocCases.

Import MyMalloc.

Lemma one_object_ok : seg_ok (size_bits LP64) (os one_object).
Proof. unfold seg_ok. repeat split; now vm_compute. Defined.

Lemma one_object_live : live LP64 one_object 4112 8.
Proof. unfold live. repeat split; now vm_compute. Defined.


(** C1: with the break at its limit, neither program returns a null
    pointer.  In src/MyMalloc.cc [sbrk] returns [(void* )-1] and
    [malloc(8)], [realloc(NULL, 8)] and [calloc(1, 8)] store the header
    through that value.  In src/malloc.c the [sbrk] of the file returns the
    old break although the break has not moved, the test for [(void* )-1]
    does not fire, and [malloc(8)] writes its header at the break, on a page
    that is not mapped. *)
Theorem malloc_on_exhausted_segment :
  fst (getMemoryFromOS LP64 (totalSize LP64 8)
         (initialized (increaseMallocCalls (start full_page None)))) =
  sbrk_failed 64 /\
  malloc LP64 8 (start full_page None) = Undef /\
  realloc LP64 0 8 (start full_page None) = Undef /\
  calloc LP64 1 8 (start full_page None) = Undef /\
  MallocC.sbrk (sbrk_argument 8) full_page = (8192, full_page) /\
  MallocC.malloc 1 8 (MallocC.initial full_page) = Undef.
Proof. repeat split; evaluate. Qed.

(** C7: [malloc(SIZE_MAX)] returns on LP64, and the size read back for the
    object is 0. *)
Theorem malloc_size_max :
  exists q p',
    malloc LP64 (2 ^ 64 - 1) (start one_page None) = Ret (q, p') /\
    q <> 0 /\ objectSize LP64 q p' = Ret 0.
Proof.
  do 2 eexists. split; [evaluate|]. split; [discriminate|evaluate].
Qed.

(** C5: [calloc(2^62 + 1, 4)] returns on LP64 an object of 8 bytes, sized
    by the product truncated to 4. *)
Theorem calloc_truncated_product :
  exists q p',
    calloc LP64 (2 ^ 62 + 1) 4 (start one_page None) = Ret (q, p') /\
    q <> 0 /\ objectSize LP64 q p' = Ret 8 /\
    seg_brk (os p') = seg_brk one_page + 24 /\
    2 ^ 64 < (2 ^ 62 + 1) * 4.
Proof.
  do 2 eexists. split; [evaluate|]. split; [discriminate|].
  split; [evaluate|]. split; reflexivity.
Qed.


(** A released block is not reused by src/MyMalloc.cc: the next request of
    the same size moves the break.  In src/malloc.c a request of size 0 after
    a release returns [NULL]. *)
Lemma release_then_allocate :
  (exists q1 p1 q2 p2,
     malloc LP64 8 (start one_page None) = Ret (q1, p1) /\
     malloc LP64 8 (free q1 p1) = Ret (q2, p2) /\
     seg_brk (os p2) = seg_brk (os p1) + 24 /\ q2 <> q1) /\
  (exists q s1 s2,
     MallocC.malloc 1 8 (MallocC.initial one_page) = Ret (q, s1) /\
     MallocC.free q s1 = Ret s2 /\
     MallocC.malloc 2 0 s2 = Ret (MallocC.NULL, s2)).
Proof.
  split.
  - do 4 eexists. split; [evaluate|]. split; [evaluate|].
    split; [reflexivity|discriminate].
  - do 3 eexists. split; [evaluate|]. split; evaluate.
Qed.

End MyMallocCases.

Section ReallocZero.

Import MyMalloc.

Variable abi : Abi.

Local Abbreviation w := (size_bits abi).
Local Abbreviation hdr := (sizeof_ObjectHeader abi).




End ReallocZero.


(** * Further properties of src/MyMalloc.cc *)

Section MyMallocFurther.

Import MyMalloc.

Variable abi : Abi.

Local Abbreviation w := (size_bits abi).
Local Abbreviation hdr := (sizeof_ObjectHeader abi).
Local Abbreviation off := (offsetof_objectSize abi).
Local Abbreviation szt := (sizeof_size_t abi).

Lemma initialized_heapSize p :
  _heapSize (TheAllocator (initialized p)) = _heapSize (TheAllocator p).
Proof. unfold initialized, initialize. now destruct (_ =? 0). Qed.


(** X12: the total [allocateObject] takes from the operating system is a
    multiple of 8, so from an 8-aligned break every returned pointer is
    8-aligned and the break stays 8-aligned. *)
Theorem allocateObject_aligned (size : Z) (p : process) (q : Z)
  (p' : process) :
  seg_ok w (os p) -> seg_brk (os p) mod 8 = 0 ->
  allocateObject abi size p = Ret (q, p') ->
  totalSize abi size mod 8 = 0 /\ q mod 8 = 0 /\ seg_brk (os p') mod 8 = 0.
Proof.
  intros Hok Hal Ha.
  destruct (allocateObject_inv abi _ _ _ _ Hok Ha) as (_ & _ & -> & ->).
  destruct (abi_layout abi) as (_ & _ & _ & _ & Hh8 & _).
  assert (HT : totalSize abi size mod 8 = 0).
  { rewrite totalSize_eq, Z.mul_comm. apply Z.mod_mul. lia. }
  assert (HS : to_signed w (totalSize abi size) mod 8 = 0).
  { destruct (to_signed_cases abi _ (totalSize_range abi size))
      as [(_ & ->) | (_ & ->)]; [exact HT|].
    destruct (abi_space abi) as (_ & k & ->).
    replace (totalSize abi size - 8 * k)
      with (totalSize abi size + (- k) * 8) by lia.
    now rewrite Z.mod_add by lia. }
  rewrite allocated_os. cbn [moved seg_brk]. split; [exact HT|].
  split; rewrite Z.add_mod by lia.
  - now rewrite Hal, Hh8.
  - now rewrite Hal, HS.
Qed.

(** X14: [_heapSize] grows by exactly what the break has moved, in
    [size_t] arithmetic. *)
Theorem heapSize_tracks_break (size : Z) (p : process) (q : Z)
  (p' : process) :
  seg_ok w (os p) -> allocateObject abi size p = Ret (q, p') ->
  _heapSize (TheAllocator p') =
  wrap w (_heapSize (TheAllocator p) + (seg_brk (os p') - seg_brk (os p))).
Proof.
  intros Hok Ha.
  destruct (allocateObject_inv abi _ _ _ _ Hok Ha) as (_ & _ & _ & ->).
  rewrite allocated_os. cbn [moved seg_brk].
  replace (seg_brk (os p) + to_signed w (totalSize abi size) - seg_brk (os p))
    with (to_signed w (totalSize abi size)) by lia.
  unfold allocated. cbn [TheAllocator _heapSize].
  rewrite initialized_heapSize.
  destruct (to_signed_cases abi _ (totalSize_range abi size))
    as [(_ & ->) | (_ & ->)]; [reflexivity|].
  unfold wrap.
  replace (_heapSize (TheAllocator p) + (totalSize abi size - 2 ^ w))
    with (_heapSize (TheAllocator p) + totalSize abi size + (-1) * 2 ^ w)
    by lia.
  rewrite Z.mod_add; [reflexivity|].
  pose proof (totalSize_range abi size). lia.
Qed.

(** X15: an allocation leaves the header and the bytes of every live
    object as they were, and the new object lies above it.  The object
    stays live when the total is a positive [intptr_t]; a total of
    [2 ^ (w - 1)] or more reaches [sbrk] as a negative increment, and when
    the call returns the break has moved down. *)
Theorem allocateObject_keeps_live (size : Z) (p : process) (q : Z)
  (p' : process) (ptr m : Z) :
  seg_ok w (os p) -> live abi p ptr m ->
  allocateObject abi size p = Ret (q, p') ->
  objectSize abi ptr p' = Ret m /\
  (forall i, 0 <= i < m -> mem p' !!! (ptr + i) = mem p !!! (ptr + i)) /\
  ptr + m <= q - hdr /\
  (totalSize abi size < 2 ^ (w - 1) -> live abi p' ptr m) /\
  (2 ^ (w - 1) <= totalSize abi size ->
   seg_brk (os p') = seg_brk (os p) + totalSize abi size - 2 ^ w /\
   seg_brk (os p') < seg_brk (os p)).
Proof.
  intros Hok Hlive Ha. pose proof Hlive as (Hb & Hm & He & Hsz).
  pose proof (objectSize_kept abi _ _ _ _ _ _ Hok Hlive Ha) as Hsz'.
  destruct (allocateObject_inv abi _ _ _ _ Hok Ha) as (Hmove & _ & -> & ->).
  pose proof (totalSize_range abi size) as HT.
  split; [exact Hsz'|]. split; [|split; [lia|split]].
  - intros i Hi. rewrite allocated_mem. apply with_header_below. lia.
  - intros Hlow. unfold live. rewrite allocated_os.
    rewrite to_signed_low by lia. cbn [moved seg_base seg_brk].
    repeat split; auto; lia.
  - intros Hhigh. rewrite allocated_os.
    rewrite to_signed_high by lia. cbn [moved seg_brk]. lia.
Qed.

(** X16: the bytes of the object [calloc] returns are zero, as many as the
    product of its arguments in [size_t] arithmetic. *)
Theorem calloc_zero_fills (nelem elsize : Z) (p : process) (q : Z)
  (p' : process) :
  seg_ok w (os p) -> calloc abi nelem elsize p = Ret (q, p') ->
  forall i, 0 <= i < wrap w (nelem * elsize) -> mem p' !!! (q + i) = 0.
Proof.
  intros Hok Hc i Hi. unfold calloc in Hc.
  set (p1 := increaseCallocCalls p) in Hc.
  assert (Hok1 : seg_ok w (os p1)) by exact Hok.
  destruct (allocateObject abi (wrap w (nelem * elsize)) p1)
    as [[ptr p2]| |] eqn:Ha; cbn [bind] in Hc; try discriminate.
  destruct (allocateObject_inv abi _ _ _ _ Hok1 Ha) as (_ & _ & Hq & _).
  replace (ptr =? 0) with false in Hc.
  2:{ symmetry. apply Z.eqb_neq. destruct Hok1 as (Hp & Hb & _).
      destruct (abi_layout abi) as (_ & _ & _ & _ & _ & Hh & _).
      unfold page_size in Hp. lia. }
  unfold memset in Hc.
  replace (wrap w (nelem * elsize) =? 0) with false in Hc
    by (symmetry; apply Z.eqb_neq; lia).
  destruct (valid (os p2) ptr (wrap w (nelem * elsize)));
    cbn [bind] in Hc; [|discriminate].
  inversion Hc; subst q p'. cbn [set_mem mem].
  rewrite fill_bytes_inside by lia. reflexivity.
Qed.

End MyMallocFurther.

Section MyMallocCalls.

Import MyMalloc.

Variable abi : Abi.

Local Abbreviation w := (size_bits abi).
Local Abbreviation hdr := (sizeof_ObjectHeader abi).

Lemma counters_allocated size p : counters (allocated abi size p) = counters p.
Proof.
  unfold counters, allocated, initialized, initialize.
  cbn [TheAllocator _mallocCalls _freeCalls _reallocCalls _callocCalls].
  destruct (_ =? 0); reflexivity.
Qed.

Lemma allocated_initialized size p :
  _initialized (TheAllocator (allocated abi size p)) <> 0.
Proof.
  unfold allocated, initialized, initialize.
  cbn [TheAllocator _initialized].
  destruct (_initialized (TheAllocator p) =? 0) eqn:E;
    cbn [TheAllocator _initialized]; [discriminate|].
  now apply Z.eqb_neq.
Qed.

(** What [realloc] does after its allocation has returned [p2]: the copy,
    if any, writes at the new payload and above. *)
Lemma realloc_tail p ptr n q p' q1 p2 :
  allocateObject abi n (increaseReallocCalls p) = Ret (q1, p2) ->
  realloc abi ptr n p = Ret (q, p') ->
  q = q1 /\ TheAllocator p' = TheAllocator p2 /\ os p' = os p2 /\
  (forall a, a < q1 -> mem p' !!! a = mem p2 !!! a).
Proof.
  intros Ha Hr. unfold realloc in Hr. rewrite Ha in Hr. cbn [bind] in Hr.
  destruct (ptr =? 0); [inversion Hr; subst; auto|].
  destruct (objectSize abi ptr p2) as [sz| |]; cbn [bind] in Hr;
    try discriminate.
  unfold memcpy, freeObject in Hr.
  destruct ((if sz >? n then n else sz) =? 0); cbn [bind] in Hr.
  - inversion Hr; subst; auto.
  - destruct (valid (os p2) _ _ && valid (os p2) _ _);
      cbn [bind] in Hr; [|discriminate].
    inversion Hr; subst q p'. cbn [set_mem TheAllocator os mem].
    repeat split; auto.
    intros a Ha'. apply copy_bytes_outside. lia.
Qed.

(** X17: each call of the C interface that returns counts once, in its own
    counter only: [realloc] and [calloc] do not count as [malloc] or [free]
    calls although they allocate and release. *)
Theorem calls_counted (p : process) :
  seg_ok w (os p) ->
  let a := TheAllocator p in
  (forall s q p', malloc abi s p = Ret (q, p') ->
     counters p' = (incr (_mallocCalls a), _freeCalls a,
                    _reallocCalls a, _callocCalls a)) /\
  (forall ptr s q p', (ptr = 0 \/ exists m, live abi p ptr m) ->
     realloc abi ptr s p = Ret (q, p') ->
     counters p' = (_mallocCalls a, _freeCalls a,
                    incr (_reallocCalls a), _callocCalls a)) /\
  (forall n e q p', calloc abi n e p = Ret (q, p') ->
     counters p' = (_mallocCalls a, _freeCalls a,
                    _reallocCalls a, incr (_callocCalls a))) /\
  (forall ptr, counters (free ptr p) =
     (_mallocCalls a, incr (_freeCalls a),
      _reallocCalls a, _callocCalls a)).
Proof.
  intros Hok a. split; [|split; [|split]].
  - intros s q p' Hm. unfold malloc in Hm.
    destruct (allocateObject_inv abi s (increaseMallocCalls p) _ _ Hok Hm)
      as (_ & _ & _ & ->).
    rewrite counters_allocated. reflexivity.
  - intros ptr s q p' _ Hr.
    destruct (allocateObject abi s (increaseReallocCalls p))
      as [[q1 p2]| |] eqn:Ha;
      [|unfold realloc in Hr; rewrite Ha in Hr; discriminate
       |unfold realloc in Hr; rewrite Ha in Hr; discriminate].
    destruct (realloc_tail p ptr s q p' q1 p2 Ha Hr) as (_ & HA & _).
    destruct (allocateObject_inv abi s (increaseReallocCalls p) _ _ Hok Ha)
      as (_ & _ & _ & ->).
    unfold counters at 1. rewrite HA. fold (counters (allocated abi s
      (increaseReallocCalls p))).
    rewrite counters_allocated. reflexivity.
  - intros n e q p' Hc. unfold calloc in Hc.
    set (p1 := increaseCallocCalls p) in Hc.
    destruct (allocateObject abi (wrap w (n * e)) p1)
      as [[ptr p2]| |] eqn:Ha; cbn [bind] in Hc; try discriminate.
    assert (Hc2 : counters p2 = counters p1).
    { destruct (allocateObject_inv abi _ p1 _ _ Hok Ha) as (_ & _ & _ & ->).
      apply counters_allocated. }
    destruct (ptr =? 0); [inversion Hc; subst; exact Hc2|].
    unfold memset in Hc. destruct (wrap w (n * e) =? 0); cbn [bind] in Hc.
    + inversion Hc; subst. exact Hc2.
    + destruct (valid (os p2) ptr (wrap w (n * e)));
        cbn [bind] in Hc; [|discriminate].
      inversion Hc; subst. exact Hc2.
  - intros ptr. unfold free, freeObject. destruct (ptr =? 0); reflexivity.
Qed.

(** X18: the first [malloc] of a process initializes the allocator: one
    exit handler is registered, the statistics at exit are switched off
    exactly when [MALLOCVERBOSE] is [NO], the heap size is the total taken
    from the operating system, and one [malloc] call is counted. *)
Theorem first_malloc_initializes (o : HeapSource) (env : option string)
  (s q : Z) (p' : process) :
  seg_ok w o -> malloc abi s (start o env) = Ret (q, p') ->
  atexit_handlers p' = 1%nat /\
  _initialized (TheAllocator p') = 1 /\
  _verbose (TheAllocator p') =
    match env with
    | Some v => if String.eqb v "NO" then 0 else 1
    | None => 1
    end /\
  _heapSize (TheAllocator p') = totalSize abi s /\
  counters p' = (1, 0, 0, 0).
Proof.
  intros Hok Hm. unfold malloc in Hm.
  assert (Hok1 : seg_ok w (os (increaseMallocCalls (start o env))))
    by exact Hok.
  destruct (allocateObject_inv abi _ _ _ _ Hok1 Hm) as (_ & _ & _ & ->).
  pose proof (totalSize_range abi s) as HT.
  split; [reflexivity|]. split; [reflexivity|]. split; [reflexivity|].
  split; [|reflexivity].
  unfold allocated, initialized, initialize, increaseMallocCalls, start,
    set_allocator.
  cbn [TheAllocator _initialized _heapSize Z.eqb].
  cbn [TheAllocator _heapSize].
  rewrite Z.add_0_l. apply (wrap_small abi). exact HT.
Qed.

(** X19: the allocator is initialized once: an allocation on a process that
    has allocated before registers no further exit handler and leaves the
    verbosity as it is. *)
Theorem initialized_once (s1 s2 q1 q2 : Z) (p p1 p2 : process) :
  seg_ok w (os p) ->
  allocateObject abi s1 p = Ret (q1, p1) ->
  allocateObject abi s2 p1 = Ret (q2, p2) ->
  atexit_handlers p2 = atexit_handlers p1 /\
  _verbose (TheAllocator p2) = _verbose (TheAllocator p1) /\
  (atexit_handlers p1 <= S (atexit_handlers p))%nat.
Proof.
  intros Hok H1 H2.
  pose proof (allocateObject_ok abi _ _ _ _ Hok H1) as Hok1.
  destruct (allocateObject_inv abi _ _ _ _ Hok1 H2) as (_ & _ & _ & ->).
  destruct (allocateObject_inv abi _ _ _ _ Hok H1) as (_ & _ & _ & ->).
  pose proof (allocated_initialized s1 p) as Hi.
  set (pa := allocated abi s1 p) in *.
  assert (Hpa : initialized pa = pa).
  { unfold initialized.
    replace (_initialized (TheAllocator pa) =? 0) with false
      by (symmetry; now apply Z.eqb_neq).
    reflexivity. }
  unfold allocated at 1 2. cbn [TheAllocator atexit_handlers _verbose].
  rewrite Hpa. split; [reflexivity|]. split; [reflexivity|].
  unfold pa, allocated, initialized, initialize.
  cbn [atexit_handlers]. destruct (_ =? 0); cbn [atexit_handlers]; lia.
Qed.

(** X20: [realloc(NULL, n)] allocates as [malloc(n)] does: the same
    pointer, the same segment and the same memory; only the counters tell
    the two calls apart.  The size read back is the total less the header
    in [size_t] arithmetic. *)
Theorem realloc_null (n q : Z) (p p1 : process) :
  seg_ok w (os p) -> realloc abi 0 n p = Ret (q, p1) ->
  exists p2,
    malloc abi n p = Ret (q, p2) /\ os p2 = os p1 /\ mem p2 = mem p1 /\
    _heapSize (TheAllocator p2) = _heapSize (TheAllocator p1) /\
    objectSize abi q p1 = Ret (wrap w (totalSize abi n - hdr)).
Proof.
  intros Hok Hr. unfold realloc in Hr.
  destruct (allocateObject abi n (increaseReallocCalls p))
    as [[q1 pr]| |] eqn:Ha; cbn [bind Z.eqb] in Hr; try discriminate.
  inversion Hr; subst q1 pr; clear Hr.
  assert (Hok1 : seg_ok w (os (increaseReallocCalls p))) by exact Hok.
  assert (Hok2 : seg_ok w (os (increaseMallocCalls p))) by exact Hok.
  pose proof (objectSize_fresh abi _ _ _ _ Hok1 Ha) as Hs.
  destruct (allocateObject_inv abi _ _ _ _ Hok1 Ha)
    as (Hmove & Hpage & Hq & Hp1).
  pose proof (allocateObject_returns abi n (increaseMallocCalls p)
                Hok2 Hmove Hpage) as Hm.
  exists (allocated abi n (increaseMallocCalls p)). unfold malloc.
  subst q p1. split; [exact Hm|].
  split; [reflexivity|]. split; [reflexivity|]. split; [|exact Hs].
  unfold allocated, initialized, initialize. cbn [TheAllocator _heapSize].
  change (_initialized (TheAllocator (increaseMallocCalls p)))
    with (_initialized (TheAllocator (increaseReallocCalls p))).
  destruct (_ =? 0); reflexivity.
Qed.


End MyMallocCalls.

Section FurtherWitnesses.

Import MyMalloc.

Lemma one_page_ok : seg_ok (size_bits LP64) (os (start one_page None)).
Proof. unfold seg_ok. repeat split; now vm_compute. Defined.

Lemma allocateObject_aligned_witness :
  seg_ok (size_bits LP64) (os (start one_page None)) /\
  seg_brk (os (start one_page None)) mod 8 = 0 /\
  exists q p',
    allocateObject LP64 5 (start one_page None) = Ret (q, p') /\
    q mod 8 = 0 /\ seg_brk (os p') mod 8 = 0.
Proof.
  assert (Hal : seg_brk (os (start one_page None)) mod 8 = 0) by reflexivity.
  split; [exact one_page_ok|]. split; [exact Hal|].
  destruct (allocateObject LP64 5 (start one_page None))
    as [[q p']| |] eqn:E;
    [|vm_compute in E; discriminate|vm_compute in E; discriminate].
  exists q, p'. split; [reflexivity|].
  exact (proj2 (allocateObject_aligned LP64 5 _ q p' one_page_ok Hal E)).
Defined.

Lemma heapSize_tracks_break_witness :
  seg_ok (size_bits LP64) (os one_object) /\
  exists q p',
    allocateObject LP64 100 one_object = Ret (q, p') /\
    _heapSize (TheAllocator p') =
    wrap (size_bits LP64)
      (_heapSize (TheAllocator one_object) +
       (seg_brk (os p') - seg_brk (os one_object))).
Proof.
  split; [exact one_object_ok|].
  destruct (allocateObject LP64 100 one_object) as [[q p']| |] eqn:E;
    [|vm_compute in E; discriminate|vm_compute in E; discriminate].
  exists q, p'. split; [reflexivity|].
  exact (heapSize_tracks_break LP64 100 one_object q p' one_object_ok E).
Defined.

Lemma allocateObject_keeps_live_witness :
  seg_ok (size_bits LP64) (os one_object) /\
  live LP64 one_object 4112 8 /\
  exists q p',
    allocateObject LP64 (2 ^ 64 - 24) one_object = Ret (q, p') /\
    objectSize LP64 4112 p' = Ret 8 /\
    4112 + 8 <= q - sizeof_ObjectHeader LP64 /\
    seg_brk (os p') < seg_brk (os one_object).
Proof.
  split; [exact one_object_ok|]. split; [exact one_object_live|].
  destruct (allocateObject LP64 (2 ^ 64 - 24) one_object)
    as [[q p']| |] eqn:E;
    [|vm_compute in E; discriminate|vm_compute in E; discriminate].
  exists q, p'. split; [reflexivity|].
  destruct (allocateObject_keeps_live LP64 (2 ^ 64 - 24) one_object q p'
              4112 8 one_object_ok one_object_live E)
    as (H1 & _ & H3 & _ & H5).
  split; [exact H1|]. split; [exact H3|].
  apply H5. vm_compute. discriminate.
Defined.

Lemma calloc_zero_fills_witness :
  seg_ok (size_bits LP64) (os one_object) /\
  exists q p',
    calloc LP64 3 4 one_object = Ret (q, p') /\
    forall i, 0 <= i < wrap (size_bits LP64) (3 * 4) -> mem p' !!! (q + i) = 0.
Proof.
  split; [exact one_object_ok|].
  destruct (calloc LP64 3 4 one_object) as [[q p']| |] eqn:E;
    [|vm_compute in E; discriminate|vm_compute in E; discriminate].
  exists q, p'. split; [reflexivity|].
  exact (calloc_zero_fills LP64 3 4 one_object q p' one_object_ok E).
Defined.

Lemma calls_counted_witness :
  seg_ok (size_bits LP64) (os one_object) /\
  exists q p',
    realloc LP64 4112 4 one_object = Ret (q, p') /\
    counters p' = (1, 0, 1, 0).
Proof.
  split; [exact one_object_ok|].
  destruct (realloc LP64 4112 4 one_object) as [[q p']| |] eqn:E;
    [|vm_compute in E; discriminate|vm_compute in E; discriminate].
  exists q, p'. split; [reflexivity|].
  destruct (calls_counted LP64 one_object one_object_ok) as (_ & Hr & _).
  exact (Hr 4112 4 q p' (or_intror (ex_intro _ 8 one_object_live)) E).
Defined.

Lemma first_malloc_initializes_witness :
  seg_ok (size_bits LP64) one_page /\
  exists q p',
    malloc LP64 8 (start one_page (Some "NO"%string)) = Ret (q, p') /\
    atexit_handlers p' = 1%nat /\ _verbose (TheAllocator p') = 0 /\
    _heapSize (TheAllocator p') = 24.
Proof.
  split; [exact one_page_ok|].
  destruct (malloc LP64 8 (start one_page (Some "NO"%string)))
    as [[q p']| |] eqn:E;
    [|vm_compute in E; discriminate|vm_compute in E; discriminate].
  exists q, p'. split; [reflexivity|].
  destruct (first_malloc_initializes LP64 one_page (Some "NO"%string)
              8 q p' one_page_ok E) as (H1 & _ & H3 & H4 & _).
  split; [exact H1|]. split; [exact H3|exact H4].
Defined.

Lemma initialized_once_witness :
  seg_ok (size_bits LP64) (os (start one_page None)) /\
  exists q1 p1 q2 p2,
    allocateObject LP64 8 (start one_page None) = Ret (q1, p1) /\
    allocateObject LP64 8 p1 = Ret (q2, p2) /\
    atexit_handlers p2 = atexit_handlers p1 /\
    _verbose (TheAllocator p2) = _verbose (TheAllocator p1).
Proof.
  split; [exact one_page_ok|].
  destruct (allocateObject LP64 8 (start one_page None))
    as [[q1 p1]| |] eqn:E1;
    [|vm_compute in E1; discriminate|vm_compute in E1; discriminate].
  destruct (allocateObject LP64 8 p1) as [[q2 p2]| |] eqn:E2.
  - exists q1, p1, q2, p2. split; [reflexivity|]. split; [exact E2|].
    destruct (initialized_once LP64 8 8 q1 q2 _ p1 p2 one_page_ok E1 E2)
      as (H1 & H2 & _).
    split; assumption.
  - exfalso. vm_compute in E1. inversion E1; subst p1.
    vm_compute in E2. discriminate.
  - exfalso. vm_compute in E1. inversion E1; subst p1.
    vm_compute in E2. discriminate.
Defined.

Lemma realloc_null_witness :
  seg_ok (size_bits LP64) (os one_object) /\
  exists q p1 p2,
    realloc LP64 0 24 one_object = Ret (q, p1) /\
    malloc LP64 24 one_object = Ret (q, p2) /\ mem p2 = mem p1.
Proof.
  split; [exact one_object_ok|].
  destruct (realloc LP64 0 24 one_object) as [[q p1]| |] eqn:E;
    [|vm_compute in E; discriminate|vm_compute in E; discriminate].
  destruct (realloc_null LP64 24 q one_object p1 one_object_ok E)
    as (p2 & Hm & _ & Hmem & _).
  exists q, p1, p2. split; [reflexivity|]. split; assumption.
Defined.


Lemma size_round_trip_witness :
  seg_ok (size_bits LP64) (os one_object) /\ 0 <= 21 /\
  21 + sizeof_ObjectHeader LP64 + 7 < 2 ^ size_bits LP64 /\
  exists q p',
    malloc LP64 21 one_object = Ret (q, p') /\
    objectSize LP64 q p' = Ret 24.
Proof.
  assert (H0 : 0 <= 21) by lia.
  assert (H1 : 21 + sizeof_ObjectHeader LP64 + 7 < 2 ^ size_bits LP64)
    by now vm_compute.
  split; [exact one_object_ok|]. split; [exact H0|]. split; [exact H1|].
  destruct (malloc LP64 21 one_object) as [[q p']| |] eqn:E;
    [|vm_compute in E; discriminate|vm_compute in E; discriminate].
  exists q, p'. split; [reflexivity|].
  exact (proj1 (size_round_trip LP64 21 one_object q p' one_object_ok H0 H1 E)).
Defined.

End FurtherWitnesses.
